(** * Gas Town: the metadata-overlay codec, attach/detach and the two logs

    A shallow embedding of [internal/beads/beads.go] (the attachment and
    merge-request field codecs, [AttachMolecule], [DetachMolecule],
    [DetachMoleculeWithAudit], [LogDetachAudit]) and of the [events]
    package ([Log], [write]), followed by the properties of the
    specification that concern them.

    Conventions of the embedding.
    - A Go [string] is a sequence of bytes: [str := list ascii].
    - [strings.TrimSpace] and [strings.ToLower] are modelled on bytes with
      their ASCII behaviour (Go's table [asciiSpace], and ['A'..'Z']); a byte
      of 128 or more is neither white space nor a capital letter here, so
      the Unicode white space and the Unicode capitals that Go also knows
      are outside the model.
    - [strings.Index] and [strings.Split] are modelled for the separators
      the code passes, which are single bytes.
    - A nilable pointer ([*Issue], [*AttachmentFields]) is an [option];
      a Go [error] result is an [option error] or a [Result].
    - A [for] loop over a slice is a [fold_left] of its body; the two
      trimming loops of the merge are recursive functions.
    - The [bd] command line tool, the file system, standard error and the
      clock are the explicit state [World] threaded through the methods of
      [Beads]. [bd] is an external program: it is modelled as a table of
      issues by identifier, with a list of faults the environment may
      impose on its coming runs. [os.OpenFile] and [Write] follow the
      contract of the Go library: [O_CREATE] creates the file and never the
      directory that holds it.

    The file has three parts: the embedding ([GoStrings], [GoOS], [beads],
    [events]), the vocabulary in which the properties are stated, and the
    lemmas and theorems. *)

From stdpp Require Import gmap strings list pretty.
From Stdlib Require Import Ascii List Bool Arith Lia.

(** ** String literals for byte sequences *)

Definition str := list ascii.

Inductive lit := LitNil | LitCons (a : ascii) (l : lit).

Fixpoint lit_parse (bs : list Byte.byte) : lit :=
  match bs with
  | [] => LitNil
  | b :: r => LitCons (ascii_of_byte b) (lit_parse r)
  end.

Fixpoint lit_print (s : lit) : list Byte.byte :=
  match s with
  | LitNil => []
  | LitCons a r => byte_of_ascii a :: lit_print r
  end.

Declare Scope str_scope.
Delimit Scope str_scope with str.
Bind Scope str_scope with str.
#[warnings="-via-type-remapping,-via-type-mismatch"]
String Notation str lit_parse lit_print
  (via lit mapping [[nil] => LitNil, [cons] => LitCons]) : str_scope.
Open Scope str_scope.

(** The line feed, ["\n"] in the Go source. *)
Definition LF : ascii := "010"%char.
(** The colon of a ["key: value"] line. *)
Definition COLON : ascii := ":"%char.

(** ** The functions of Go's [strings] package used by the code *)

Module GoStrings.

(** [asciiSpace] of the Go library: tab, line feed, vertical tab, form feed,
    carriage return and space. *)
Definition asciiSpace (c : ascii) : bool :=
  let n := nat_of_ascii c in
  (n =? 9) || (n =? 10) || (n =? 11) || (n =? 12) || (n =? 13) || (n =? 32).

(** The first loop of [TrimSpace]: skip the leading white space. *)
Fixpoint trimLeft (s : str) : str :=
  match s with
  | [] => []
  | c :: r => if asciiSpace c then trimLeft r else s
  end.

(** The second loop of [TrimSpace]: step back over the trailing white space. *)
Definition trimRight (s : str) : str := rev (trimLeft (rev s)).

Definition TrimSpace (s : str) : str := trimRight (trimLeft s).

(** [strings.Index(s, sep)] for a separator of one byte; [None] is Go's -1. *)
Fixpoint Index (s : str) (sep : ascii) : option nat :=
  match s with
  | [] => None
  | c :: r => if Ascii.eqb c sep then Some 0 else S <$> Index r sep
  end.

(** [strings.Split(s, sep)] for a separator of one byte. The result is never
    empty: splitting the empty string yields one empty piece. *)
Fixpoint Split (s : str) (sep : ascii) : list str :=
  match s with
  | [] => [[]]
  | c :: r =>
      if Ascii.eqb c sep then [] :: Split r sep
      else match Split r sep with
           | [] => [[c]]
           | l :: ls => (c :: l) :: ls
           end
  end.

(** [strings.Join(elems, sep)]. *)
Fixpoint Join (elems : list str) (sep : str) : str :=
  match elems with
  | [] => []
  | [e] => e
  | e :: rest => e ++ sep ++ Join rest sep
  end.

Definition lowerByte (c : ascii) : ascii :=
  let n := nat_of_ascii c in
  if (65 <=? n) && (n <=? 90) then ascii_of_nat (n + 32) else c.

(** [strings.ToLower] on ASCII. *)
Definition ToLower (s : str) : str := List.map lowerByte s.

End GoStrings.

Import GoStrings.

(** Go's [s == ""]. *)
Definition isEmpty (s : str) : bool :=
  match s with [] => true | _ => false end.

(** ** Errors, and the part of package [os] used by the two logs *)

Module GoOS.

(** A path as [filepath.Join] builds it: the root it is given, then the
    names below it. *)
Definition path := list str.

(** The path as text, for a root that is clean in the sense of
    [path/filepath]: not empty, and without a separator at its end. *)
Definition pathString (p : path) : str := Join p "/".

(** The directory that contains [p]. *)
Definition parent (p : path) : path := removelast p.

Inductive Errno := ENOENT | EISDIR | EACCES | ENOSPC.

Definition errnoString (e : Errno) : str :=
  match e with
  | ENOENT => "no such file or directory"
  | EISDIR => "is a directory"
  | EACCES => "permission denied"
  | ENOSPC => "no space left on device"
  end.

(** Go [error] values, as the code builds them. *)
Inductive error :=
| ErrNotFound                                   (* the variable [ErrNotFound] *)
| ErrExternal (msg : str)                       (* an error of a collaborator *)
| PathError (op : str) (p : path) (e : Errno)   (* [*fs.PathError] *)
| Errorf (msg : str)                            (* [fmt.Errorf] without [%w] *)
| Wrap (context : str) (err : error).           (* [fmt.Errorf(context+": %w", err)] *)

(** The method [Error()]. *)
Fixpoint Error (e : error) : str :=
  match e with
  | ErrNotFound => "issue not found"
  | ErrExternal msg => msg
  | PathError op p e => op ++ " " ++ pathString p ++ ": " ++ errnoString e
  | Errorf msg => msg
  | Wrap context err => context ++ ": " ++ Error err
  end.

Inductive Result (A : Type) :=
| Ok (a : A)
| Err (e : error).
Arguments Ok {A} a.
Arguments Err {A} e.

(** The file system: the directories that exist, the regular files with
    their contents, the entries the process may not write to, and whether
    the device is full. *)
Record FS := mkFS {
  dirs : gset path;
  files : gmap path str;
  readOnly : gset path;
  diskFull : bool
}.

Definition setFiles (fs : FS) (fl : gmap path str) : FS :=
  mkFS (dirs fs) fl (readOnly fs) (diskFull fs).

(** [os.OpenFile(p, os.O_APPEND|os.O_CREATE|os.O_WRONLY, 0644)]: the file is
    created when it is absent; the directory that is to contain it is not.
    The handle is the path. *)
Definition OpenFile (p : path) (fs : FS) : Result path * FS :=
  if bool_decide (p ∈ dirs fs) then (Err (PathError "open" p EISDIR), fs)
  else if negb (bool_decide (parent p ∈ dirs fs))
  then (Err (PathError "open" p ENOENT), fs)
  else
    match files fs !! p with
    | Some _ =>
        if bool_decide (p ∈ readOnly fs)
        then (Err (PathError "open" p EACCES), fs)
        else (Ok p, fs)
    | None =>
        if bool_decide (parent p ∈ readOnly fs)
        then (Err (PathError "open" p EACCES), fs)
        else (Ok p, setFiles fs (<[p := []]> (files fs)))
    end.

(** [f.Write(data)] on a handle opened with [O_APPEND]. *)
Definition Write (f : path) (data : str) (fs : FS) : option error * FS :=
  if diskFull fs then (Some (PathError "write" f ENOSPC), fs)
  else (None, setFiles fs (<[f := default [] (files fs !! f) ++ data]> (files fs))).

End GoOS.

Import GoOS.

(** ** Package [beads] *)

Module beads.

(** [Issue]: the fields of the Go struct that the modelled code reads or
    that [Update] writes. *)
Record Issue := mkIssue {
  ID : str;
  Title : str;
  Description : str;
  Status : str;
  Priority : Z;
  Assignee : str
}.

Definition StatusPinned : str := "pinned".

Record AttachmentFields := mkAttachmentFields {
  AttachedMolecule : str;
  AttachedAt : str;
  AttachedArgs : str
}.

(** The zero value [&AttachmentFields{}]. *)
Definition zeroAttachmentFields : AttachmentFields := mkAttachmentFields [] [] [].

(** A Go [switch] over string constants: is [k] one of the case labels? *)
Definition oneOf (k : str) (labels : list str) : bool :=
  bool_decide (k ∈ labels).

(** The body of the loop of [ParseAttachmentFields]; the state is the pair
    of the local variables [fields] and [hasFields]. *)
Definition parseAttachmentLine
    (st : AttachmentFields * bool) (line : str) : AttachmentFields * bool :=
  let '(fields, hasFields) := st in
  let line := TrimSpace line in
  if isEmpty line then st
  else
    match Index line COLON with
    | None => st
    | Some colonIdx =>
        let key := TrimSpace (take colonIdx line) in
        let value := TrimSpace (drop (S colonIdx) line) in
        if isEmpty value then st
        else
          let k := ToLower key in
          if oneOf k ["attached_molecule"; "attached-molecule"; "attachedmolecule"]
          then (mkAttachmentFields value (AttachedAt fields) (AttachedArgs fields), true)
          else if oneOf k ["attached_at"; "attached-at"; "attachedat"]
          then (mkAttachmentFields (AttachedMolecule fields) value (AttachedArgs fields), true)
          else if oneOf k ["attached_args"; "attached-args"; "attachedargs"]
          then (mkAttachmentFields (AttachedMolecule fields) (AttachedAt fields) value, true)
          else st
    end.

Definition ParseAttachmentFields (issue : option Issue) : option AttachmentFields :=
  match issue with
  | None => None
  | Some i =>
      if isEmpty (Description i) then None
      else
        let '(fields, hasFields) :=
          fold_left parseAttachmentLine (Split (Description i) LF)
                    (zeroAttachmentFields, false) in
        if hasFields then Some fields else None
  end.

(** [if value != "" { lines = append(lines, label + value) }] *)
Definition appendField (lines : list str) (label value : str) : list str :=
  if isEmpty value then lines else lines ++ [label ++ value].

(** The slice [lines] built by [FormatAttachmentFields]. *)
Definition attachmentLines (fields : AttachmentFields) : list str :=
  let lines := [] in
  let lines := appendField lines "attached_molecule: " (AttachedMolecule fields) in
  let lines := appendField lines "attached_at: " (AttachedAt fields) in
  let lines := appendField lines "attached_args: " (AttachedArgs fields) in
  lines.

Definition FormatAttachmentFields (fields : option AttachmentFields) : str :=
  match fields with
  | None => []
  | Some f => Join (attachmentLines f) [LF]
  end.

(** The [map[string]bool] literal of [SetAttachmentFields]. *)
Definition attachmentKeys : gmap str bool :=
  list_to_map
    [("attached_molecule", true); ("attached-molecule", true);
     ("attachedmolecule", true);
     ("attached_at", true); ("attached-at", true); ("attachedat", true);
     ("attached_args", true); ("attached-args", true); ("attachedargs", true)].

(** Indexing a Go [map[string]bool]: a missing key reads as [false]. *)
Definition mapIndex (m : gmap str bool) (k : str) : bool :=
  default false (m !! k).

(** The body of the loop that collects [otherLines], shared by
    [SetAttachmentFields] and [SetMRFields], which differ only in the key
    table. *)
Definition collectOtherLine
    (keys : gmap str bool) (otherLines : list str) (line : str) : list str :=
  let trimmed := TrimSpace line in
  if isEmpty trimmed then otherLines ++ [line]
  else
    match Index trimmed COLON with
    | None => otherLines ++ [line]
    | Some colonIdx =>
        let key := ToLower (TrimSpace (take colonIdx trimmed)) in
        if negb (mapIndex keys key) then otherLines ++ [line]
        else otherLines
    end.

(** Go's [strings.TrimSpace(l) == ""]. *)
Definition isBlank (l : str) : bool := isEmpty (TrimSpace l).

(** [for len(otherLines) > 0 && blank(otherLines[0]) { otherLines = otherLines[1:] }] *)
Fixpoint trimLeadingBlank (otherLines : list str) : list str :=
  match otherLines with
  | [] => []
  | l :: rest => if isBlank l then trimLeadingBlank rest else otherLines
  end.

(** [for len(otherLines) > 0 && blank(otherLines[len-1]) { otherLines = otherLines[:len-1] }] *)
Definition trimTrailingBlank (otherLines : list str) : list str :=
  rev (trimLeadingBlank (rev otherLines)).

(** The tail shared by [SetAttachmentFields] and [SetMRFields]: trim the
    blank ends of [otherLines] and put the formatted block first. *)
Definition assemble (formatted : str) (otherLines : list str) : str :=
  let otherLines := trimTrailingBlank otherLines in
  let otherLines := trimLeadingBlank otherLines in
  if isEmpty formatted then Join otherLines [LF]
  else if Nat.eqb (length otherLines) 0 then formatted
  else formatted ++ [LF; LF] ++ Join otherLines [LF].

Definition SetAttachmentFields
    (issue : option Issue) (fields : option AttachmentFields) : str :=
  let otherLines :=
    match issue with
    | Some i =>
        if negb (isEmpty (Description i))
        then fold_left (collectOtherLine attachmentKeys)
                       (Split (Description i) LF) []
        else []
    | None => []
    end in
  let formatted := FormatAttachmentFields fields in
  assemble formatted otherLines.

(** *** Merge-request fields *)

Record MRFields := mkMRFields {
  Branch : str;
  Target : str;
  SourceIssue : str;
  Worker : str;
  Rig : str;
  MergeCommit : str;
  CloseReason : str
}.

Definition zeroMRFields : MRFields := mkMRFields [] [] [] [] [] [] [].

(** The assignments [fields.X = value] of [ParseMRFields]. *)
Definition setBranch (v : str) (f : MRFields) : MRFields :=
  mkMRFields v (Target f) (SourceIssue f) (Worker f) (Rig f) (MergeCommit f) (CloseReason f).
Definition setTarget (v : str) (f : MRFields) : MRFields :=
  mkMRFields (Branch f) v (SourceIssue f) (Worker f) (Rig f) (MergeCommit f) (CloseReason f).
Definition setSourceIssue (v : str) (f : MRFields) : MRFields :=
  mkMRFields (Branch f) (Target f) v (Worker f) (Rig f) (MergeCommit f) (CloseReason f).
Definition setWorker (v : str) (f : MRFields) : MRFields :=
  mkMRFields (Branch f) (Target f) (SourceIssue f) v (Rig f) (MergeCommit f) (CloseReason f).
Definition setRig (v : str) (f : MRFields) : MRFields :=
  mkMRFields (Branch f) (Target f) (SourceIssue f) (Worker f) v (MergeCommit f) (CloseReason f).
Definition setMergeCommit (v : str) (f : MRFields) : MRFields :=
  mkMRFields (Branch f) (Target f) (SourceIssue f) (Worker f) (Rig f) v (CloseReason f).
Definition setCloseReason (v : str) (f : MRFields) : MRFields :=
  mkMRFields (Branch f) (Target f) (SourceIssue f) (Worker f) (Rig f) (MergeCommit f) v.

(** The body of the loop of [ParseMRFields]. *)
Definition parseMRLine (st : MRFields * bool) (line : str) : MRFields * bool :=
  let '(fields, hasFields) := st in
  let line := TrimSpace line in
  if isEmpty line then st
  else
    match Index line COLON with
    | None => st
    | Some colonIdx =>
        let key := TrimSpace (take colonIdx line) in
        let value := TrimSpace (drop (S colonIdx) line) in
        if isEmpty value then st
        else
          let k := ToLower key in
          if oneOf k ["branch"] then (setBranch value fields, true)
          else if oneOf k ["target"] then (setTarget value fields, true)
          else if oneOf k ["source_issue"; "source-issue"; "sourceissue"]
          then (setSourceIssue value fields, true)
          else if oneOf k ["worker"] then (setWorker value fields, true)
          else if oneOf k ["rig"] then (setRig value fields, true)
          else if oneOf k ["merge_commit"; "merge-commit"; "mergecommit"]
          then (setMergeCommit value fields, true)
          else if oneOf k ["close_reason"; "close-reason"; "closereason"]
          then (setCloseReason value fields, true)
          else st
    end.

Definition ParseMRFields (issue : option Issue) : option MRFields :=
  match issue with
  | None => None
  | Some i =>
      if isEmpty (Description i) then None
      else
        let '(fields, hasFields) :=
          fold_left parseMRLine (Split (Description i) LF) (zeroMRFields, false) in
        if hasFields then Some fields else None
  end.

(** The slice [lines] built by [FormatMRFields]. *)
Definition mrLines (fields : MRFields) : list str :=
  let lines := [] in
  let lines := appendField lines "branch: " (Branch fields) in
  let lines := appendField lines "target: " (Target fields) in
  let lines := appendField lines "source_issue: " (SourceIssue fields) in
  let lines := appendField lines "worker: " (Worker fields) in
  let lines := appendField lines "rig: " (Rig fields) in
  let lines := appendField lines "merge_commit: " (MergeCommit fields) in
  let lines := appendField lines "close_reason: " (CloseReason fields) in
  lines.

Definition FormatMRFields (fields : option MRFields) : str :=
  match fields with
  | None => []
  | Some f => Join (mrLines f) [LF]
  end.

(** The [map[string]bool] literal of [SetMRFields]. *)
Definition mrKeys : gmap str bool :=
  list_to_map
    [("branch", true); ("target", true);
     ("source_issue", true); ("source-issue", true); ("sourceissue", true);
     ("worker", true); ("rig", true);
     ("merge_commit", true); ("merge-commit", true); ("mergecommit", true);
     ("close_reason", true); ("close-reason", true); ("closereason", true)].

Definition SetMRFields (issue : option Issue) (fields : option MRFields) : str :=
  match issue with
  | None => FormatMRFields fields
  | Some i =>
      let otherLines :=
        if negb (isEmpty (Description i))
        then fold_left (collectOtherLine mrKeys) (Split (Description i) LF) []
        else [] in
      let formatted := FormatMRFields fields in
      assemble formatted otherLines
  end.

(** *** The [bd] collaborator, the clock and standard error *)

(** [Beads]: the wrapper around the [bd] tool for one working directory. *)
Record Beads := mkBeads { workDir : str }.

(** [UpdateOptions]: a [nil] pointer is [None]. The label slices are left
    out: [Issue] carries no labels and no modelled caller sets them. *)
Record UpdateOptions := mkUpdateOptions {
  optTitle : option str;
  optStatus : option str;
  optPriority : option Z;
  optDescription : option str;
  optAssignee : option str
}.

(** [UpdateOptions{Description: &d}]. *)
Definition descriptionOnly (d : str) : UpdateOptions :=
  mkUpdateOptions None None None (Some d) None.

(** What the methods of [Beads] act on.
    - [bdIssues]: the issue database the [bd] tool reads and writes;
    - [bdFaults]: the outcome the environment imposes on the coming runs of
      [bd], one entry for each run: [Some e] makes the run fail with [e]
      (tool missing, database locked, ...), [None] lets it through; after
      the list is used up every run goes through;
    - [fsys]: the file system; [stderr]: the bytes written to standard
      error; [clock]: what [time.Now().UTC().Format(time.RFC3339)] yields. *)
Record World := mkWorld {
  bdIssues : gmap str Issue;
  bdFaults : list (option error);
  fsys : FS;
  stderr : str;
  clock : str
}.

Definition setFsys (w : World) (fs : FS) : World :=
  mkWorld (bdIssues w) (bdFaults w) fs (stderr w) (clock w).

Definition setStderr (w : World) (out : str) : World :=
  mkWorld (bdIssues w) (bdFaults w) (fsys w) out (clock w).

(** [b.run(args...)]: one run of [bd]; [cmd] is what the sub-command does
    to the database when the run goes through. *)
Definition run {A : Type}
    (cmd : gmap str Issue -> Result A * gmap str Issue)
    (w : World) : Result A * World :=
  match bdFaults w with
  | Some e :: rest =>
      (Err e, mkWorld (bdIssues w) rest (fsys w) (stderr w) (clock w))
  | None :: rest =>
      let '(r, db) := cmd (bdIssues w) in
      (r, mkWorld db rest (fsys w) (stderr w) (clock w))
  | [] =>
      let '(r, db) := cmd (bdIssues w) in
      (r, mkWorld db [] (fsys w) (stderr w) (clock w))
  end.

(** [bd show id --json]: the issue, or [ErrNotFound]. *)
Definition Show (b : Beads) (id : str) (w : World) : Result Issue * World :=
  run (fun db =>
         match db !! id with
         | Some issue => (Ok issue, db)
         | None => (Err ErrNotFound, db)
         end) w.

(** The issue after [bd update] with the flags that [Update] passes. *)
Definition applyUpdate (opts : UpdateOptions) (i : Issue) : Issue :=
  mkIssue (ID i)
          (default (Title i) (optTitle opts))
          (default (Description i) (optDescription opts))
          (default (Status i) (optStatus opts))
          (default (Priority i) (optPriority opts))
          (default (Assignee i) (optAssignee opts)).

Definition Update (b : Beads) (id : str) (opts : UpdateOptions)
    (w : World) : option error * World :=
  let '(r, w) :=
    run (fun db =>
           match db !! id with
           | Some issue => (Ok tt, <[id := applyUpdate opts issue]> db)
           | None => (Err ErrNotFound, db)
           end) w in
  match r with
  | Ok _ => (None, w)
  | Err err => (Some err, w)
  end.

Definition currentTimestamp (w : World) : str := clock w.

(** *** Attach *)

Definition AttachMolecule (b : Beads) (pinnedBeadID moleculeID : str)
    (w : World) : Result Issue * World :=
  let '(r, w) := Show b pinnedBeadID w in
  match r with
  | Err err => (Err (Wrap "fetching pinned bead" err), w)
  | Ok issue =>
      if bool_decide (Status issue ≠ StatusPinned)
      then (Err (Errorf ("issue " ++ pinnedBeadID ++ " is not pinned (status: "
                           ++ Status issue ++ ")")), w)
      else
        let fields := mkAttachmentFields moleculeID (currentTimestamp w) [] in
        let newDesc := SetAttachmentFields (Some issue) (Some fields) in
        let '(err, w) := Update b pinnedBeadID (descriptionOnly newDesc) w in
        match err with
        | Some err => (Err (Wrap "updating pinned bead" err), w)
        | None => Show b pinnedBeadID w
        end
  end.

(** *** Detach *)

Definition DetachMolecule (b : Beads) (pinnedBeadID : str)
    (w : World) : Result Issue * World :=
  let '(r, w) := Show b pinnedBeadID w in
  match r with
  | Err err => (Err (Wrap "fetching pinned bead" err), w)
  | Ok issue =>
      match ParseAttachmentFields (Some issue) with
      | None => (Ok issue, w)
      | Some _ =>
          let newDesc := SetAttachmentFields (Some issue) None in
          let '(err, w) := Update b pinnedBeadID (descriptionOnly newDesc) w in
          match err with
          | Some err => (Err (Wrap "updating pinned bead" err), w)
          | None => Show b pinnedBeadID w
          end
      end
  end.

Record DetachAuditEntry := mkDetachAuditEntry {
  Timestamp : str;
  Operation : str;
  PinnedBeadID : str;
  DetachedMolecule : str;
  DetachedBy : str;
  Reason : str;
  PreviousState : str
}.

Record DetachOptions := mkDetachOptions {
  optOperation : str;
  optAgent : str;
  optReason : str
}.

(** *** [json.Marshal] of a [DetachAuditEntry] *)

Definition QUOTE : ascii := "034"%char.
Definition BACKSLASH : ascii := "092"%char.

Definition hexDigit (n : nat) : ascii := nth n "0123456789abcdef" "0"%char.

(** The encoder's [htmlSafeSet]: the printable ASCII bytes other than the
    quote, the backslash and the three HTML characters. *)
Definition htmlSafe (c : ascii) : bool :=
  let n := nat_of_ascii c in
  (32 <=? n) && (n <? 128) &&
  negb ((n =? 34) || (n =? 38) || (n =? 60) || (n =? 62) || (n =? 92)).

(** How the encoder writes one byte of a string; bytes of 128 and more
    (well-formed UTF-8) are copied. *)
Definition escapeByte (c : ascii) : str :=
  let n := nat_of_ascii c in
  if 128 <=? n then [c]
  else if htmlSafe c then [c]
  else if (n =? 92) || (n =? 34) then [BACKSLASH; c]
  else if n =? 8 then [BACKSLASH; "b"%char]
  else if n =? 12 then [BACKSLASH; "f"%char]
  else if n =? 10 then [BACKSLASH; "n"%char]
  else if n =? 13 then [BACKSLASH; "r"%char]
  else if n =? 9 then [BACKSLASH; "t"%char]
  else [BACKSLASH; "u"%char; "0"%char; "0"%char;
        hexDigit (n / 16); hexDigit (n mod 16)].

Definition jsonString (s : str) : str :=
  [QUOTE] ++ flat_map escapeByte s ++ [QUOTE].

Definition jsonMember (name value : str) : str :=
  [QUOTE] ++ name ++ [QUOTE] ++ ":" ++ jsonString value.

(** A member tagged [omitempty]. *)
Definition jsonOmitEmpty (name value : str) : str :=
  if isEmpty value then [] else "," ++ jsonMember name value.

Definition json_Marshal (entry : DetachAuditEntry) : Result str :=
  Ok ("{" ++ jsonMember "timestamp" (Timestamp entry)
          ++ "," ++ jsonMember "operation" (Operation entry)
          ++ "," ++ jsonMember "pinned_bead_id" (PinnedBeadID entry)
          ++ "," ++ jsonMember "detached_molecule" (DetachedMolecule entry)
          ++ jsonOmitEmpty "detached_by" (DetachedBy entry)
          ++ jsonOmitEmpty "reason" (Reason entry)
          ++ jsonOmitEmpty "previous_state" (PreviousState entry)
          ++ "}").

(** *** The audit log *)

Definition auditPath (b : Beads) : path := [workDir b; ".beads"; "audit.log"].

Definition LogDetachAudit (b : Beads) (entry : DetachAuditEntry)
    (w : World) : option error * World :=
  let auditPath := auditPath b in
  match json_Marshal entry with
  | Err err => (Some (Wrap "marshaling audit entry" err), w)
  | Ok data =>
      let '(r, fs) := OpenFile auditPath (fsys w) in
      match r with
      | Err err => (Some (Wrap "opening audit log" err), setFsys w fs)
      | Ok f =>
          let '(err, fs) := Write f (data ++ [LF]) fs in
          match err with
          | Some err => (Some (Wrap "writing audit entry" err), setFsys w fs)
          | None => (None, setFsys w fs)
          end
      end
  end.

Definition DetachMoleculeWithAudit (b : Beads) (pinnedBeadID : str)
    (opts : DetachOptions) (w : World) : Result Issue * World :=
  let '(r, w) := Show b pinnedBeadID w in
  match r with
  | Err err => (Err (Wrap "fetching pinned bead" err), w)
  | Ok issue =>
      match ParseAttachmentFields (Some issue) with
      | None => (Ok issue, w)
      | Some attachment =>
          let operation :=
            if isEmpty (optOperation opts) then "detach" else optOperation opts in
          let entry :=
            mkDetachAuditEntry (currentTimestamp w) operation pinnedBeadID
              (AttachedMolecule attachment) (optAgent opts) (optReason opts)
              (Status issue) in
          let '(err, w) := LogDetachAudit b entry w in
          let w :=
            match err with
            | Some err =>
                setStderr w (stderr w ++ "Warning: failed to write audit log: "
                                      ++ Error err ++ [LF])
            | None => w
            end in
          let newDesc := SetAttachmentFields (Some issue) None in
          let '(err, w) := Update b pinnedBeadID (descriptionOnly newDesc) w in
          match err with
          | Some err => (Err (Wrap "updating pinned bead" err), w)
          | None => Show b pinnedBeadID w
          end
      end
  end.

(** *** Reading the attachment *)

(** [GetAttachment]: the error of the fetch is returned as it is. *)
Definition GetAttachment (b : Beads) (pinnedBeadID : str)
    (w : World) : Result (option AttachmentFields) * World :=
  let '(r, w) := Show b pinnedBeadID w in
  match r with
  | Err err => (Err err, w)
  | Ok issue => (Ok (ParseAttachmentFields (Some issue)), w)
  end.

(** *** Queries, the handoff bead and the mail *)

Record ListOptions := mkListOptions {
  listStatus : str;
  listType : str;
  listPriority : Z;
  listParent : str;
  listAssignee : str;
  listNoAssignee : bool
}.

Record CreateOptions := mkCreateOptions {
  createTitle : str;
  createType : str;
  createPriority : Z;
  createDescription : str;
  createParent : str;
  createActor : str
}.

(** [fmt.Sprintf("%d", n)]. *)
Definition itoa (n : Z) : str := String.list_ascii_of_string (pretty n).

(** The arguments that [List] passes to [bd]. *)
Definition listArgs (opts : ListOptions) : list str :=
  let args := ["list"; "--json"] in
  let args := if negb (isEmpty (listStatus opts))
              then args ++ ["--status=" ++ listStatus opts] else args in
  let args := if negb (isEmpty (listType opts))
              then args ++ ["--type=" ++ listType opts] else args in
  let args := if (0 <=? listPriority opts)%Z
              then args ++ ["--priority=" ++ itoa (listPriority opts)] else args in
  let args := if negb (isEmpty (listParent opts))
              then args ++ ["--parent=" ++ listParent opts] else args in
  let args := if negb (isEmpty (listAssignee opts))
              then args ++ ["--assignee=" ++ listAssignee opts] else args in
  if listNoAssignee opts then args ++ ["--no-assignee"] else args.

(** The arguments that [Create] passes to [bd]. *)
Definition createArgs (opts : CreateOptions) : list str :=
  let args := ["create"; "--json"] in
  let args := if negb (isEmpty (createTitle opts))
              then args ++ ["--title=" ++ createTitle opts] else args in
  let args := if negb (isEmpty (createType opts))
              then args ++ ["--type=" ++ createType opts] else args in
  let args := if (0 <=? createPriority opts)%Z
              then args ++ ["--priority=" ++ itoa (createPriority opts)] else args in
  let args := if negb (isEmpty (createDescription opts))
              then args ++ ["--description=" ++ createDescription opts] else args in
  let args := if negb (isEmpty (createParent opts))
              then args ++ ["--parent=" ++ createParent opts] else args in
  if negb (isEmpty (createActor opts))
  then args ++ ["--actor=" ++ createActor opts] else args.

(** [UpdateOptions{Status: &s}]. *)
Definition statusOnly (s : str) : UpdateOptions :=
  mkUpdateOptions None (Some s) None None None.

Definition HandoffBeadTitle (role : str) : str := role ++ " Handoff".

Record ClearMailResult := mkClearMailResult {
  Closed : nat;
  Cleared : nat
}.

(** The body of the loop of [ClearMail] that separates the pinned messages
    from the others; the state is the pair of [toClose] and [toClear]. *)
Definition separateMail
    (st : list str * list Issue) (issue : Issue) : list str * list Issue :=
  let '(toClose, toClear) := st in
  if bool_decide (Status issue = StatusPinned)
  then (toClose, toClear ++ [issue])
  else (toClose ++ [ID issue], toClear).

(** The loop of [ClearMail] over [toClear]; it ends at the first update
    that fails. *)
Fixpoint clearPinned (b : Beads) (toClear : list Issue)
    (result : ClearMailResult) (w : World) : Result ClearMailResult * World :=
  match toClear with
  | [] => (Ok result, w)
  | issue :: rest =>
      let '(err, w) := Update b (ID issue) (descriptionOnly []) w in
      match err with
      | Some err =>
          (Err (Wrap ("clearing pinned message " ++ ID issue) err), w)
      | None =>
          clearPinned b rest
            (mkClearMailResult (Closed result) (S (Cleared result))) w
      end
  end.

Section Tool.

(** What [bd] answers on the sub-commands [list], [create] and [close],
    given their arguments and the database: for [list], what
    [json.Unmarshal] makes of the output; for [create], the same and the
    database afterwards; for [close], the database afterwards. A run that
    fails is the matter of [bdFaults]. *)
Variable bdList : list str -> gmap str Issue -> Result (list Issue).
Variable bdCreate : list str -> gmap str Issue -> Result Issue * gmap str Issue.
Variable bdClose : list str -> gmap str Issue -> gmap str Issue.

Definition List (b : Beads) (opts : ListOptions)
    (w : World) : Result (list Issue) * World :=
  let '(r, w) := run (fun db => (Ok (bdList (listArgs opts) db), db)) w in
  match r with
  | Err err => (Err err, w)
  | Ok (Err err) => (Err (Wrap "parsing bd list output" err), w)
  | Ok (Ok issues) => (Ok issues, w)
  end.

Definition Create (b : Beads) (opts : CreateOptions)
    (w : World) : Result Issue * World :=
  let '(r, w) :=
    run (fun db => let '(out, db) := bdCreate (createArgs opts) db in
                   (Ok out, db)) w in
  match r with
  | Err err => (Err err, w)
  | Ok (Err err) => (Err (Wrap "parsing bd create output" err), w)
  | Ok (Ok issue) => (Ok issue, w)
  end.

Definition CloseWithReason (b : Beads) (reason : str) (ids : list str)
    (w : World) : option error * World :=
  if length ids =? 0 then (None, w)
  else
    let args := ("close" :: ids) ++ ["--reason=" ++ reason] in
    let '(r, w) := run (fun db => (Ok tt, bdClose args db)) w in
    match r with
    | Ok _ => (None, w)
    | Err err => (Some err, w)
    end.

(** [FindHandoffBead]: the first listed issue with the title of the role,
    [nil] when there is none. *)
Definition FindHandoffBead (b : Beads) (role : str)
    (w : World) : Result (option Issue) * World :=
  let '(r, w) := List b (mkListOptions StatusPinned [] (-1) [] [] false) w in
  match r with
  | Err err => (Err (Wrap "listing pinned issues" err), w)
  | Ok issues =>
      let targetTitle := HandoffBeadTitle role in
      (Ok (List.find (fun issue => bool_decide (Title issue = targetTitle))
                     issues), w)
  end.

Definition GetOrCreateHandoffBead (b : Beads) (role : str)
    (w : World) : Result Issue * World :=
  let '(r, w) := FindHandoffBead b role w in
  match r with
  | Err err => (Err err, w)
  | Ok (Some existing) => (Ok existing, w)
  | Ok None =>
      let '(r, w) :=
        Create b (mkCreateOptions (HandoffBeadTitle role) "task" 2 [] [] role) w in
      match r with
      | Err err => (Err (Wrap "creating handoff bead" err), w)
      | Ok issue =>
          let '(err, w) := Update b (ID issue) (statusOnly StatusPinned) w in
          match err with
          | Some err => (Err (Wrap "setting handoff bead to pinned" err), w)
          | None => Show b (ID issue) w
          end
      end
  end.

Definition UpdateHandoffContent (b : Beads) (role content : str)
    (w : World) : option error * World :=
  let '(r, w) := GetOrCreateHandoffBead b role w in
  match r with
  | Err err => (Some err, w)
  | Ok issue => Update b (ID issue) (descriptionOnly content) w
  end.

Definition ClearHandoffContent (b : Beads) (role : str)
    (w : World) : option error * World :=
  let '(r, w) := FindHandoffBead b role w in
  match r with
  | Err err => (Some err, w)
  | Ok None => (None, w)
  | Ok (Some issue) => Update b (ID issue) (descriptionOnly []) w
  end.

Definition ClearMail (b : Beads) (reason : str)
    (w : World) : Result ClearMailResult * World :=
  let '(r, w) := List b (mkListOptions "open" "message" (-1) [] [] false) w in
  match r with
  | Err err => (Err (Wrap "listing messages" err), w)
  | Ok issues =>
      let result := mkClearMailResult 0 0 in
      let '(toClose, toClear) := fold_left separateMail issues ([], []) in
      if 0 <? length toClose
      then
        let '(err, w) := CloseWithReason b reason toClose w in
        match err with
        | Some err => (Err (Wrap "closing messages" err), w)
        | None =>
            clearPinned b toClear
              (mkClearMailResult (length toClose) (Cleared result)) w
        end
      else clearPinned b toClear result w
  end.

End Tool.

End beads.

Import beads.

(** ** Package [events] *)

Module events.

Definition VisibilityAudit : str := "audit".
Definition VisibilityFeed : str := "feed".
Definition VisibilityBoth : str := "both".

Definition EventsFile : str := ".events.jsonl".

Section Events.

(** The payload is a [map[string]interface{}]: any Go value. Its type and
    [json.Marshal] on events stay abstract. *)
Variable Payload : Type.

Record Event := mkEvent {
  evTimestamp : str;
  evSource : str;
  evType : str;
  evActor : str;
  evPayload : Payload;
  evVisibility : str
}.

Variable json_Marshal : Event -> Result str.

(** What [Log] acts on: the answer of [workspace.FindFromCwd()] (a package
    of the repository that is not part of the sources at hand) for the
    calling process, the file system and the clock. *)
Record Env := mkEnv {
  findFromCwd : str * option error;
  envFsys : FS;
  envClock : str
}.

Definition setEnvFsys (e : Env) (fs : FS) : Env :=
  mkEnv (findFromCwd e) fs (envClock e).

(** [write]; the package mutex serialises the goroutines of one process
    and has no effect on a single call. *)
Definition write (event : Event) (env : Env) : option error * Env :=
  let '(townRoot, err) := findFromCwd env in
  if bool_decide (is_Some err) || isEmpty townRoot then (None, env)
  else
    let eventsPath := [townRoot; EventsFile] in
    match json_Marshal event with
    | Err err => (Some (Wrap "marshaling event" err), env)
    | Ok data =>
        let data := data ++ [LF] in
        let '(r, fs) := OpenFile eventsPath (envFsys env) in
        match r with
        | Err err => (Some (Wrap "opening events file" err), setEnvFsys env fs)
        | Ok f =>
            let '(err, fs) := Write f data fs in
            match err with
            | Some err => (Some (Wrap "writing event" err), setEnvFsys env fs)
            | None => (None, setEnvFsys env fs)
            end
        end
    end.

Definition Log (eventType actor : str) (payload : Payload) (visibility : str)
    (env : Env) : option error * Env :=
  let event := mkEvent (envClock env) "gt" eventType actor payload visibility in
  write event env.

Definition LogFeed (eventType actor : str) (payload : Payload) :=
  Log eventType actor payload VisibilityFeed.

Definition LogAudit (eventType actor : str) (payload : Payload) :=
  Log eventType actor payload VisibilityAudit.

End Events.

End events.

(** ** Vocabulary of the specification *)

(** A fully blank line, and a byte sequence that holds no line feed. *)
Definition allSpace (s : str) : Prop := Forall (fun c => asciiSpace c = true) s.
Definition noLF (s : str) : Prop := LF ∉ s.

(** The key of a line: what stands before its first colon, trimmed and in
    lower case; a line without a colon has none. *)
Definition lineKey (line : str) : option str :=
  let trimmed := TrimSpace line in
  match Index trimmed COLON with
  | None => None
  | Some colonIdx => Some (ToLower (TrimSpace (take colonIdx trimmed)))
  end.

(** The key of the line matches an alias of the schema. *)
Definition matchesSchema (keys : gmap str bool) (line : str) : bool :=
  match lineKey line with
  | None => false
  | Some k => mapIndex keys k
  end.

(** The lines of a text that merge leaves alone. *)
Definition survivors (keys : gmap str bool) (text : str) : list str :=
  List.filter (fun l => negb (matchesSchema keys l)) (Split text LF).

(** A list of lines that neither starts nor ends with a blank line. *)
Definition endsNonBlank (ls : list str) : Prop :=
  match ls with
  | [] => True
  | l :: _ => isBlank l = false ∧ isBlank (List.last ls l) = false
  end.

(** Content preservation: the lines of [result] end with the survivors of
    [text], less a run of blank lines in front and one behind; what comes
    before them is the formatted block, if any, and the separating empty
    line. *)
Definition contentPreserved
    (keys : gmap str bool) (text formatted result : str) : Prop :=
  ∃ header lead core trail,
    survivors keys text = lead ++ core ++ trail ∧
    Forall allSpace lead ∧ Forall allSpace trail ∧ endsNonBlank core ∧
    Split result LF = header ++ core ∧
    (header = [] ∨ header = Split formatted LF ∨
     header = Split formatted LF ++ [[]]).

(** The slice [otherLines] after the collecting loop of [SetAttachmentFields]
    and [SetMRFields], for a description [text]. *)
Definition collected (keys : gmap str bool) (text : str) : list str :=
  if negb (isEmpty text)
  then fold_left (collectOtherLine keys) (Split text LF) []
  else [].

(** A key proper: not empty, without white space, without a colon. *)
Definition properKey (k : str) : Prop :=
  k ≠ [] ∧ Forall (fun c => asciiSpace c = false ∧ c ≠ COLON) k.

(** A schema line with an empty value: white space, an alias of the schema
    in any case, white space, the colon, white space. *)
Definition emptyValueLine (keys : gmap str bool) (line : str) : Prop :=
  ∃ ws1 k ws2 ws3,
    line = ws1 ++ k ++ ws2 ++ COLON :: ws3 ∧
    allSpace ws1 ∧ allSpace ws2 ∧ allSpace ws3 ∧
    mapIndex keys (ToLower k) = true.

(** Every alias of the table is a key proper. *)
Definition aliasesProper (keys : gmap str bool) : Prop :=
  ∀ k, mapIndex keys k = true -> properKey k.

(** A value that the codec carries unchanged: no white space at either end
    and no line feed. *)
Definition cleanValue (v : str) : Prop := TrimSpace v = v ∧ noLF v.

Definition cleanAttachment (f : AttachmentFields) : Prop :=
  cleanValue (AttachedMolecule f) ∧ cleanValue (AttachedAt f) ∧
  cleanValue (AttachedArgs f).


(** The state of the attachment parser: every field is clean, and once
    [hasFields] is set some field is not empty. *)
Definition parsedState (st : AttachmentFields * bool) : Prop :=
  cleanAttachment (fst st) ∧ (snd st = true -> fst st ≠ zeroAttachmentFields).

(** The values of an attachment field set hold no line feed. *)
Definition oneLineValues (fields : option AttachmentFields) : Prop :=
  match fields with
  | None => True
  | Some f =>
      noLF (AttachedMolecule f) ∧ noLF (AttachedAt f) ∧ noLF (AttachedArgs f)
  end.

(** The [bd] tool answers every coming run. *)
Definition healthy (w : World) : Prop := bdFaults w = [].

(** The entry that [DetachMoleculeWithAudit] builds. *)
Definition detachEntry (w : World) (pinnedBeadID : str) (opts : DetachOptions)
    (attachment : AttachmentFields) (issue : Issue) : DetachAuditEntry :=
  mkDetachAuditEntry (clock w)
    (if isEmpty (optOperation opts) then "detach" else optOperation opts)
    pinnedBeadID (AttachedMolecule attachment) (optAgent opts) (optReason opts)
    (Status issue).

(** The issue with another description. *)
Definition withDescription (i : Issue) (d : str) : Issue :=
  mkIssue (ID i) (Title i) d (Status i) (Priority i) (Assignee i).

(** The world with another issue database. *)
Definition withIssues (w : World) (db : gmap str Issue) : World :=
  mkWorld db (bdFaults w) (fsys w) (stderr w) (clock w).

(** The file system after [data] was appended to the file [p]. *)
Definition appended (fs : FS) (p : path) (data : str) : FS :=
  setFiles fs (<[p := default [] (files fs !! p) ++ data]> (files fs)).

(** Opening [p] for appending succeeds and the device has room. *)
Definition appendable (p : path) (fs : FS) : Prop :=
  (p ∉ dirs fs) ∧ (parent p ∈ dirs fs) ∧
  (match files fs !! p with
   | Some _ => p ∉ readOnly fs
   | None => parent p ∉ readOnly fs
   end) ∧
  diskFull fs = false.

(** The record as a detach leaves it: as it was when it carries no
    attachment field, without the overlay otherwise. *)
Definition detached (issue : Issue) : Issue :=
  match ParseAttachmentFields (Some issue) with
  | None => issue
  | Some _ => withDescription issue (SetAttachmentFields (Some issue) None)
  end.

(** The record as an attach of [moleculeID] at time [now] leaves it. *)
Definition attached (issue : Issue) (moleculeID now : str) : Issue :=
  withDescription issue
    (SetAttachmentFields (Some issue)
       (Some (mkAttachmentFields moleculeID now []))).

(** The warning that [DetachMoleculeWithAudit] prints for an audit error. *)
Definition auditWarning (e : error) : str :=
  "Warning: failed to write audit log: " ++ Error e ++ [LF].

(** The values of a merge-request field set hold no line feed. *)
Definition oneLineMR (fields : option MRFields) : Prop :=
  match fields with
  | None => True
  | Some f =>
      noLF (Branch f) ∧ noLF (Target f) ∧ noLF (SourceIssue f) ∧
      noLF (Worker f) ∧ noLF (Rig f) ∧ noLF (MergeCommit f) ∧
      noLF (CloseReason f)
  end.

(** What a parser returns after its loop has run over [ls]: the fields, if
    one of them was set. *)
Definition parsedFrom {F : Type} (step : F * bool -> str -> F * bool)
    (zero : F) (ls : list str) : option F :=
  let '(fields, hasFields) := fold_left step ls (zero, false) in
  if hasFields then Some fields else None.

(** A line that a parser passes over, whatever it has seen so far. *)
Definition passedOver {S : Type} (step : S -> str -> S) (line : str) : Prop :=
  ∀ st, step st line = st.

(** The formatted lines of a field set, [nil] included. *)
Definition formattedAttachment (fields : option AttachmentFields) : list str :=
  match fields with None => [] | Some f => attachmentLines f end.

Definition formattedMR (fields : option MRFields) : list str :=
  match fields with None => [] | Some f => mrLines f end.

(** The file system [fs'] differs from [fs] at most in the file [p], and
    there only by bytes added behind what the file held. *)
Definition appendOnly (fs fs' : FS) (p : path) : Prop :=
  dirs fs' = dirs fs ∧
  (∀ q, q ≠ p -> files fs' !! q = files fs !! q) ∧
  (∀ old, files fs !! p = Some old ->
          ∃ extra, files fs' !! p = Some (old ++ extra)).

(** The queries of [FindHandoffBead] and of [ClearMail]. *)
Definition pinnedQuery : ListOptions :=
  mkListOptions StatusPinned [] (-1) [] [] false.

Definition mailQuery : ListOptions :=
  mkListOptions "open" "message" (-1) [] [] false.

(** What [GetOrCreateHandoffBead] asks [bd] to create for a role. *)
Definition handoffBead (role : str) : CreateOptions :=
  mkCreateOptions (HandoffBeadTitle role) "task" 2 [] [] role.

Definition isPinned (issue : Issue) : bool :=
  bool_decide (Status issue = StatusPinned).

(** *** A small town, for the scenarios *)

Definition townBeads : Beads := mkBeads "/town/rig".

(** A file system where the audit directory exists, and one where only the
    working directory does. *)
Definition readyFS : FS := mkFS {[ ["/town/rig"; ".beads"] ]} ∅ ∅ false.
Definition bareFS : FS := mkFS {[ ["/town/rig"] ]} ∅ ∅ false.

Definition handoff (description status : str) : Issue :=
  mkIssue "gt-1" "mayor Handoff" description status 2 "".

Definition town (fs : FS) (issue : Issue) : World :=
  mkWorld {[ "gt-1" := issue ]} [] fs "" "2025-01-01T00:00:00Z".

(** A handoff bead with an attachment, arguments and notes, and the field
    sets of the examples. *)
Definition notedHandoff : Issue :=
  handoff "attached_molecule: gt-7
attached_args: fix it

Remember the tests." "pinned".

Definition freshFields : AttachmentFields :=
  mkAttachmentFields "gt-42" "2025-01-01T00:00:00Z" "".

Definition nuxMR : MRFields :=
  mkMRFields "polecat/Nux/gt-xyz" "main" "gt-xyz" "Nux" "" "" "".

(** A process inside the workspace [/town], and one whose town root is not
    on the file system. *)
Definition townFS : FS := mkFS {[ ["/town"] ]} ∅ ∅ false.

Definition insideEnv (fs : FS) : events.Env :=
  events.mkEnv ("/town", None) fs "2025-01-01T00:00:00Z".

(** A message, and the town with the handoff bead and the message. *)
Definition hello : Issue := mkIssue "gt-2" "hello" "see you at noon" "open" 2 "".

Definition postOffice : World :=
  mkWorld (<[ "gt-1" := notedHandoff ]> {[ "gt-2" := hello ]}) [] readyFS ""
          "2025-01-01T00:00:00Z".

(** The bead that [bd create] answers with in the examples. *)
Definition witnessBead : Issue := mkIssue "gt-9" "witness Handoff" "" "open" 2 "".

(** The town when [bd] fails as [faults] says, run after run. *)
Definition troubledTown (faults : list (option error)) (fs : FS)
    (issue : Issue) : World :=
  mkWorld {[ "gt-1" := issue ]} faults fs "" "2025-01-01T00:00:00Z".

Definition byToast : DetachOptions := mkDetachOptions "" "gastown/Toast" "".

Definition sampleEntry : DetachAuditEntry :=
  mkDetachAuditEntry "2025-01-01T00:00:00Z" "detach" "gt-1" "gt-42"
                     "gastown/Toast" "" "pinned".

(** ** Lemmas on the string functions *)

Section StringLemmas.

Lemma asciiSpace_COLON : asciiSpace COLON = false.
Proof. reflexivity. Qed.

Lemma trimLeft_allSpace (ws s : str) :
  allSpace ws -> trimLeft (ws ++ s) = trimLeft s.
Proof.
  induction 1 as [|c ws Hc _ IH]; simpl; [done|].
  by rewrite Hc.
Qed.

Lemma trimLeft_app_nonspace (a : str) (c : ascii) (b : str) :
  asciiSpace c = false -> trimLeft (a ++ c :: b) = trimLeft a ++ c :: b.
Proof.
  intros Hc. induction a as [|x a IH]; simpl.
  - by rewrite Hc.
  - destruct (asciiSpace x); [apply IH | done].
Qed.

Lemma trimLeft_nil_allSpace (s : str) : trimLeft s = [] <-> allSpace s.
Proof.
  split.
  - induction s as [|c s IH]; simpl; intros H; [by apply Forall_nil|].
    destruct (asciiSpace c) eqn:Hc; [|done].
    apply Forall_cons; [done | by apply IH].
  - intros H. rewrite <- (app_nil_r s). by rewrite trimLeft_allSpace.
Qed.

(** What [trimLeft] returns is empty or starts with a byte that is not white
    space. *)
Lemma trimLeft_head (s : str) :
  trimLeft s = [] ∨ ∃ c r, trimLeft s = c :: r ∧ asciiSpace c = false.
Proof.
  induction s as [|c s IH]; simpl; [by left|].
  destruct (asciiSpace c) eqn:Hc; [done|]. right. eauto.
Qed.

Lemma trimLeft_suffix (s : str) : ∃ ws, s = ws ++ trimLeft s ∧ allSpace ws.
Proof.
  induction s as [|c s (ws & Hs & Hws)]; simpl.
  - exists []. split; [done|constructor].
  - destruct (asciiSpace c) eqn:Hc.
    + exists (c :: ws). split; [simpl; congruence|by constructor].
    + exists []. split; [done|constructor].
Qed.

Lemma allSpace_rev (s : str) : allSpace (rev s) <-> allSpace s.
Proof. unfold allSpace. rewrite !Forall_forall. setoid_rewrite <- in_rev. done. Qed.

Lemma trimRight_allSpace (ws : str) : allSpace ws -> trimRight ws = [].
Proof.
  intros H. unfold trimRight.
  apply allSpace_rev in H. apply trimLeft_nil_allSpace in H. by rewrite H.
Qed.

Lemma trimRight_app_nonspace (a : str) (c : ascii) (b : str) :
  asciiSpace c = false -> trimRight (a ++ c :: b) = a ++ c :: trimRight b.
Proof.
  intros Hc. unfold trimRight.
  rewrite rev_app_distr. simpl. rewrite <- app_assoc. simpl.
  rewrite trimLeft_app_nonspace by done.
  rewrite rev_app_distr. simpl. rewrite rev_involutive.
  by rewrite <- app_assoc.
Qed.

(** What [trimRight] returns is empty or ends with a byte that is not white
    space. *)
Lemma trimRight_last (s : str) :
  trimRight s = [] ∨ ∃ r c, trimRight s = r ++ [c] ∧ asciiSpace c = false.
Proof.
  unfold trimRight. destruct (trimLeft_head (rev s)) as [H | (c & r & H & Hc)].
  - left. by rewrite H.
  - right. exists (rev r), c. rewrite H. by simpl.
Qed.

Lemma TrimSpace_nil_allSpace (s : str) : TrimSpace s = [] <-> allSpace s.
Proof.
  unfold TrimSpace. split.
  - intros H. destruct (trimLeft_suffix s) as (ws & Hs & Hws).
    rewrite Hs. apply Forall_app. split; [done|].
    destruct (trimLeft_head s) as [E | (c & r & E & Hc)].
    + rewrite E. constructor.
    + rewrite E in H. change (c :: r) with ([] ++ c :: r) in H.
      rewrite trimRight_app_nonspace in H by done. done.
  - intros H. apply trimLeft_nil_allSpace in H. by rewrite H.
Qed.

Lemma isBlank_allSpace (s : str) : isBlank s = true <-> allSpace s.
Proof.
  rewrite <- TrimSpace_nil_allSpace. unfold isBlank.
  destruct (TrimSpace s); simpl; split; done.
Qed.

Lemma Index_app_first (a : str) (c : ascii) (b : str) :
  c ∉ a -> Index (a ++ c :: b) c = Some (length a).
Proof.
  induction a as [|x a IH]; simpl; intros Hn.
  - by rewrite Ascii.eqb_refl.
  - destruct (Ascii.eqb x c) eqn:E.
    + apply Ascii.eqb_eq in E. subst. exfalso. apply Hn. left.
    + rewrite IH; [done|]. intros Hin. apply Hn. by right.
Qed.

Lemma Index_None (s : str) (c : ascii) : Index s c = None <-> c ∉ s.
Proof.
  induction s as [|x s IH]; simpl.
  - split; [intros _; apply not_elem_of_nil|done].
  - destruct (Ascii.eqb x c) eqn:E.
    + apply Ascii.eqb_eq in E. subst. split; [done|]. intros H. exfalso. apply H. left.
    + apply Ascii.eqb_neq in E. destruct (Index s c) eqn:EI; simpl.
      * split; [done|]. intros H. exfalso.
        assert (c ∉ s) as Hs by (intros Hin; apply H; by right).
        apply IH in Hs. done.
      * split; [|done]. intros _ Hin. apply elem_of_cons in Hin as [->|Hin]; [done|].
        by apply IH in Hin.
Qed.

End StringLemmas.

(** ** Lemmas on [Split] and [Join] *)

Section SplitJoin.

Lemma Split_not_nil (s : str) (c : ascii) : Split s c ≠ [].
Proof.
  destruct s as [|x s]; simpl; [done|].
  destruct (Ascii.eqb x c); [done|]. by destruct (Split s c).
Qed.

Lemma Split_app_sep (a b : str) (c : ascii) :
  Split (a ++ c :: b) c = Split a c ++ Split b c.
Proof.
  induction a as [|x a IH]; simpl.
  - by rewrite Ascii.eqb_refl.
  - destruct (Ascii.eqb x c); rewrite IH; [done|].
    pose proof (Split_not_nil a c). by destruct (Split a c).
Qed.

Lemma Split_no_sep (s : str) (c : ascii) : c ∉ s -> Split s c = [s].
Proof.
  induction s as [|x s IH]; simpl; intros Hn; [done|].
  destruct (Ascii.eqb x c) eqn:E.
  - apply Ascii.eqb_eq in E. subst. exfalso. apply Hn. left.
  - rewrite IH; [done|]. intros Hin. apply Hn. by right.
Qed.

Lemma Split_pieces_no_sep (s : str) (c : ascii) :
  Forall (fun l => c ∉ l) (Split s c).
Proof.
  induction s as [|x s IH]; simpl.
  - constructor; [apply not_elem_of_nil|constructor].
  - destruct (Ascii.eqb x c) eqn:E.
    + constructor; [apply not_elem_of_nil|done].
    + apply Ascii.eqb_neq in E.
      destruct (Split s c) as [|l ls]; simpl.
      * constructor; [|constructor]. intros Hin.
        apply elem_of_cons in Hin as [->|Hin]; [done|]. by apply not_elem_of_nil in Hin.
      * inversion IH; subst. constructor; [|done].
        intros Hin. apply elem_of_cons in Hin as [->|Hin]; done.
Qed.

Lemma Split_Join (ls : list str) (c : ascii) :
  ls ≠ [] -> Forall (fun l => c ∉ l) ls -> Split (Join ls [c]) c = ls.
Proof.
  induction ls as [|e rest IH]; [done|]. intros _ Hall.
  inversion Hall as [|? ? He Hrest]; subst.
  destruct rest as [|e' rest].
  - simpl. by apply Split_no_sep.
  - change (Join (e :: e' :: rest) [c]) with (e ++ c :: Join (e' :: rest) [c]).
    rewrite Split_app_sep, IH by done. by rewrite Split_no_sep.
Qed.

Lemma Join_nil_inv (ls : list str) (sep : str) :
  Join ls sep = [] -> sep ≠ [] -> ls = [] ∨ ls = [[]].
Proof.
  destruct ls as [|e rest]; [by left|]. intros H Hsep.
  destruct rest as [|e' rest]; simpl in H.
  - right. by subst.
  - apply app_eq_nil in H as [_ H]. apply app_eq_nil in H as [H _]. done.
Qed.

End SplitJoin.

(** ** Lemmas on collecting and trimming the other lines *)

Section OtherLines.

Variable keys : gmap str bool.

(** One step of the collecting loop keeps the line unless its key matches. *)
Lemma collectOtherLine_spec (acc : list str) (line : str) :
  collectOtherLine keys acc line =
  if matchesSchema keys line then acc else acc ++ [line].
Proof.
  unfold collectOtherLine, matchesSchema, lineKey.
  destruct (TrimSpace line) as [|c t] eqn:Et; [done|].
  cbn [isEmpty].
  destruct (Index (c :: t) COLON) as [i|]; [|done].
  by destruct (mapIndex keys _).
Qed.

(** The collecting loop is a filter. *)
Lemma collect_filter (ls acc : list str) :
  fold_left (collectOtherLine keys) ls acc =
  acc ++ List.filter (fun l => negb (matchesSchema keys l)) ls.
Proof.
  revert acc. induction ls as [|l ls IH]; intros acc; simpl.
  - by rewrite app_nil_r.
  - rewrite IH, collectOtherLine_spec.
    destruct (matchesSchema keys l); simpl; [done|].
    by rewrite <- app_assoc.
Qed.

End OtherLines.

Section Trimming.

Lemma trimLeadingBlank_split (ls : list str) :
  ∃ lead, ls = lead ++ trimLeadingBlank ls ∧ Forall (fun l => isBlank l = true) lead.
Proof.
  induction ls as [|l ls (lead & Hls & Hlead)]; simpl.
  - exists []. split; [done|constructor].
  - destruct (isBlank l) eqn:Hl.
    + exists (l :: lead). split; [simpl; congruence|by constructor].
    + exists []. split; [done|constructor].
Qed.

Lemma trimLeadingBlank_head (ls : list str) :
  match trimLeadingBlank ls with
  | [] => True
  | l :: _ => isBlank l = false
  end.
Proof.
  induction ls as [|l ls IH]; simpl; [done|].
  by destruct (isBlank l) eqn:Hl.
Qed.

Lemma trimLeadingBlank_app_nonblank (a : list str) (l : str) (b : list str) :
  isBlank l = false ->
  trimLeadingBlank (a ++ l :: b) = trimLeadingBlank a ++ l :: b.
Proof.
  intros Hl. induction a as [|x a IH]; simpl.
  - by rewrite Hl.
  - destruct (isBlank x); [apply IH|done].
Qed.

Lemma trimLeadingBlank_fixed (ls : list str) :
  match ls with [] => True | l :: _ => isBlank l = false end ->
  trimLeadingBlank ls = ls.
Proof. destruct ls as [|l ls]; simpl; [done|]. by intros ->. Qed.

Lemma trimTrailingBlank_split (ls : list str) :
  ∃ trail, ls = trimTrailingBlank ls ++ trail ∧ Forall (fun l => isBlank l = true) trail.
Proof.
  unfold trimTrailingBlank.
  destruct (trimLeadingBlank_split (rev ls)) as (lead & Hls & Hlead).
  exists (rev lead). split.
  - rewrite <- rev_app_distr, <- Hls. by rewrite rev_involutive.
  - apply Forall_forall. intros x Hx. apply in_rev in Hx.
    rewrite Forall_forall in Hlead. by apply Hlead.
Qed.

(** What the trailing loop leaves is empty or ends with a line that is not
    blank. *)
Lemma trimTrailingBlank_last (ls : list str) :
  trimTrailingBlank ls = [] ∨
  ∃ r l, trimTrailingBlank ls = r ++ [l] ∧ isBlank l = false.
Proof.
  unfold trimTrailingBlank.
  pose proof (trimLeadingBlank_head (rev ls)) as H.
  destruct (trimLeadingBlank (rev ls)) as [|l r]; [by left|].
  right. exists (rev r), l. by simpl.
Qed.

Lemma trimTrailingBlank_app_nonblank (a : list str) (l : str) :
  isBlank l = false -> trimTrailingBlank (a ++ [l]) = a ++ [l].
Proof.
  intros Hl. unfold trimTrailingBlank.
  rewrite rev_app_distr. simpl. rewrite Hl. simpl.
  by rewrite rev_involutive.
Qed.

(** The two trimming loops in the order of the code: the lines split into
    a blank head, the core and a blank tail, and the core neither starts nor
    ends with a blank line. *)
Lemma trim_both_split (ls : list str) :
  let core := trimLeadingBlank (trimTrailingBlank ls) in
  ∃ lead trail,
    ls = lead ++ core ++ trail ∧
    Forall (fun l => isBlank l = true) lead ∧
    Forall (fun l => isBlank l = true) trail ∧
    endsNonBlank core.
Proof.
  intros core.
  destruct (trimTrailingBlank_split ls) as (trail & Hls & Htrail).
  destruct (trimLeadingBlank_split (trimTrailingBlank ls)) as (lead & Hmid & Hlead).
  exists lead, trail. split; [|split; [done|split; [done|]]].
  - rewrite app_assoc. fold core in Hmid. by rewrite <- Hmid.
  - subst core.
    destruct (trimTrailingBlank_last ls) as [E | (r & l & E & Hl)].
    + by rewrite E.
    + rewrite E. rewrite trimLeadingBlank_app_nonblank by done.
      pose proof (trimLeadingBlank_head r) as Hh.
      unfold endsNonBlank.
      destruct (trimLeadingBlank r) as [|x r'] eqn:Er.
      * by simpl.
      * rewrite <- app_comm_cons. split; [done|].
        by rewrite app_comm_cons, last_last.
Qed.

(** Lines that neither start nor end with a blank line are left alone by the
    two loops. *)
Lemma trim_both_fixed (ls : list str) :
  endsNonBlank ls -> trimLeadingBlank (trimTrailingBlank ls) = ls.
Proof.
  destruct ls as [|l ls]; [done|]. intros [Hl Hlast].
  destruct (exists_last (l := l :: ls)) as (r & x & E); [done|].
  rewrite E in Hlast |- *. rewrite last_last in Hlast.
  rewrite trimTrailingBlank_app_nonblank by done.
  apply trimLeadingBlank_fixed.
  destruct r as [|y r]; simpl in *; [done|].
  by injection E as <- _.
Qed.

End Trimming.

(** ** Content preservation *)

Section Preservation.

Lemma blank_lines_allSpace (ls : list str) :
  Forall (fun l => isBlank l = true) ls -> Forall allSpace ls.
Proof.
  intros H. eapply Forall_impl; [|exact H].
  intros l Hl. by apply isBlank_allSpace.
Qed.

(** The lines of what [assemble] returns. *)
Lemma assemble_lines (formatted : str) (core : list str) :
  Forall noLF core -> endsNonBlank core ->
  assemble formatted core =
    (if isEmpty formatted then Join core [LF]
     else if Nat.eqb (length core) 0 then formatted
     else formatted ++ [LF; LF] ++ Join core [LF]) ∧
  ∃ header,
    Split (assemble formatted core) LF = header ++ core ∧
    (header = [] ∨ header = Split formatted LF ∨
     header = Split formatted LF ++ [[]]).
Proof.
  intros Hlf Hends. unfold assemble. rewrite trim_both_fixed by done.
  split; [done|].
  destruct formatted as [|c f]; cbn [isEmpty].
  - destruct core as [|l core].
    + exists [[]]. split; [done|]. right. by left.
    + exists []. split; [|by left]. by apply Split_Join.
  - destruct core as [|l core]; cbn [length Nat.eqb].
    + exists (Split (c :: f) LF). split; [by rewrite app_nil_r|]. right. by left.
    + exists (Split (c :: f) LF ++ [[]]). split; [|by right; right].
      change ((c :: f) ++ [LF; LF] ++ Join (l :: core) [LF])
        with ((c :: f) ++ LF :: ([] ++ LF :: Join (l :: core) [LF])).
      rewrite !Split_app_sep. rewrite Split_Join by done.
      by rewrite <- app_assoc.
Qed.

Lemma assemble_trim (formatted : str) (ls : list str) :
  assemble formatted ls =
  assemble formatted (trimLeadingBlank (trimTrailingBlank ls)).
Proof.
  unfold assemble. destruct (trim_both_split ls) as (lead & trail & _ & _ & _ & He).
  by rewrite (trim_both_fixed _ He).
Qed.

Lemma survivors_noLF (keys : gmap str bool) (text : str) :
  Forall noLF (survivors keys text).
Proof.
  unfold survivors. apply Forall_forall. intros l Hl.
  apply filter_In in Hl as [Hl _].
  pose proof (Split_pieces_no_sep text LF) as H.
  rewrite Forall_forall in H. by apply H.
Qed.

Lemma collected_core (keys : gmap str bool) (text : str) :
  trimLeadingBlank (trimTrailingBlank (collected keys text)) =
  trimLeadingBlank (trimTrailingBlank (survivors keys text)).
Proof.
  unfold collected. destruct text as [|c t]; [done|].
  cbn [isEmpty negb]. by rewrite collect_filter.
Qed.

Lemma merge_preserves (keys : gmap str bool) (text formatted : str) :
  contentPreserved keys text formatted (assemble formatted (collected keys text)).
Proof.
  rewrite assemble_trim, collected_core.
  destruct (trim_both_split (survivors keys text))
    as (lead & trail & Hs & Hlead & Htrail & Hends).
  set (core := trimLeadingBlank (trimTrailingBlank (survivors keys text))) in *.
  assert (Forall noLF core) as Hlf.
  { pose proof (survivors_noLF keys text) as H. rewrite Hs in H.
    apply Forall_app in H as [_ H]. by apply Forall_app in H as [H _]. }
  destruct (assemble_lines formatted core Hlf Hends) as (_ & header & Hsplit & Hheader).
  exists header, lead, core, trail.
  repeat split; auto using blank_lines_allSpace.
Qed.

End Preservation.

(** ** The anatomy of a ["key: value"] line *)

Section LineAnatomy.

Lemma trimRight_prefix (s : str) : ∃ ws, s = trimRight s ++ ws ∧ allSpace ws.
Proof.
  unfold trimRight. destruct (trimLeft_suffix (rev s)) as (ws & Hs & Hws).
  exists (rev ws). split.
  - rewrite <- rev_app_distr, <- Hs. by rewrite rev_involutive.
  - by apply allSpace_rev.
Qed.

(** [TrimSpace] only removes bytes. *)
Lemma TrimSpace_elem (c : ascii) (s : str) : c ∈ TrimSpace s -> c ∈ s.
Proof.
  unfold TrimSpace. intros H.
  destruct (trimLeft_suffix s) as (ws1 & Hs & _).
  destruct (trimRight_prefix (trimLeft s)) as (ws2 & Ht & _).
  rewrite Hs, Ht. apply elem_of_app. right. apply elem_of_app. by left.
Qed.

(** What [TrimSpace] returns is empty, or starts and ends with bytes that
    are not white space. *)
Lemma TrimSpace_ends (s : str) :
  TrimSpace s = [] ∨
  (∃ c t, TrimSpace s = c :: t ∧ asciiSpace c = false) ∧
  (∃ r d, TrimSpace s = r ++ [d] ∧ asciiSpace d = false).
Proof.
  unfold TrimSpace.
  destruct (trimLeft_head s) as [E | (c & t & E & Hc)]; rewrite E; [by left|].
  right.
  assert (trimRight (c :: t) = c :: trimRight t) as Hr.
  { change (c :: t) with ([] ++ c :: t). by rewrite trimRight_app_nonspace. }
  split.
  - exists c, (trimRight t). by rewrite Hr.
  - destruct (trimRight_last (c :: t)) as [E' | (r & d & E' & Hd)].
    + rewrite Hr in E'. done.
    + exists r, d. by rewrite E'.
Qed.

Lemma TrimSpace_idem (s : str) : TrimSpace (TrimSpace s) = TrimSpace s.
Proof.
  destruct (TrimSpace_ends s) as [E | [(c & t & E & Hc) (r & d & E' & Hd)]].
  - by rewrite E.
  - rewrite E'. unfold TrimSpace.
    assert (trimLeft (r ++ [d]) = r ++ [d]) as ->.
    { rewrite <- E', E. simpl. by rewrite Hc. }
    rewrite trimRight_app_nonspace by done. done.
Qed.

Lemma TrimSpace_trimRight (s : str) : TrimSpace (trimRight s) = TrimSpace s.
Proof.
  destruct (trimRight_last s) as [E | (r & d & E & Hd)].
  - rewrite E. symmetry. apply TrimSpace_nil_allSpace.
    destruct (trimRight_prefix s) as (ws & Hs & Hws).
    rewrite E in Hs. simpl in Hs. by subst.
  - destruct (trimRight_prefix s) as (ws & Hs & Hws).
    rewrite E in Hs. rewrite E, Hs. unfold TrimSpace.
    rewrite <- app_assoc. simpl.
    rewrite (trimLeft_app_nonspace r d ws) by done.
    rewrite (trimLeft_app_nonspace r d []) by done.
    rewrite !trimRight_app_nonspace by done.
    by rewrite (trimRight_allSpace ws).
Qed.

(** A byte sequence without white space, followed by white space. *)
Lemma TrimSpace_nospace_app (k ws : str) :
  Forall (fun c => asciiSpace c = false) k -> allSpace ws ->
  TrimSpace (k ++ ws) = k.
Proof.
  intros Hk Hws. unfold TrimSpace.
  destruct k as [|c k].
  - simpl. apply trimLeft_nil_allSpace in Hws. by rewrite Hws.
  - inversion Hk as [|? ? Hc Hk']; subst. simpl. rewrite Hc.
    destruct (exists_last (l := c :: k)) as (r & d & E); [done|].
    assert (asciiSpace d = false) as Hd.
    { rewrite Forall_forall in Hk. apply Hk. rewrite E. apply in_app_iff. right. by left. }
    change (c :: k ++ ws) with ((c :: k) ++ ws). rewrite E.
    rewrite <- app_assoc. simpl.
    by rewrite trimRight_app_nonspace, trimRight_allSpace.
Qed.

Lemma drop_S_app (a : str) (c : ascii) (b : str) :
  drop (S (length a)) (a ++ c :: b) = b.
Proof. induction a as [|x a IH]; simpl; [done|apply IH]. Qed.

Lemma take_length_app (a b : str) : take (length a) (a ++ b) = a.
Proof. induction a as [|x a IH]; simpl; [by destruct b|by rewrite IH]. Qed.

Lemma allSpace_no_colon (ws : str) : allSpace ws -> COLON ∉ ws.
Proof.
  intros H Hin. unfold allSpace in H. rewrite Forall_forall in H.
  apply list_elem_of_In in Hin. apply H in Hin. done.
Qed.

Lemma properKey_no_colon (k : str) : properKey k -> COLON ∉ k.
Proof.
  intros [_ H] Hin. rewrite Forall_forall in H.
  apply list_elem_of_In in Hin. apply H in Hin as [_ Hin]. done.
Qed.

Lemma properKey_nospace (k : str) :
  properKey k -> Forall (fun c => asciiSpace c = false) k.
Proof.
  intros [_ H]. eapply Forall_impl; [|exact H]. by intros c [Hc _].
Qed.

(** A line made of white space, a key proper, white space, a colon and the
    rest: how the code takes it apart. *)
Lemma line_anatomy (ws1 k ws2 rest : str) :
  allSpace ws1 -> properKey k -> allSpace ws2 ->
  let line := ws1 ++ k ++ ws2 ++ COLON :: rest in
  let trimmed := TrimSpace line in
  trimmed ≠ [] ∧
  ∃ colonIdx,
    Index trimmed COLON = Some colonIdx ∧
    TrimSpace (take colonIdx trimmed) = k ∧
    TrimSpace (drop (S colonIdx) trimmed) = TrimSpace rest.
Proof.
  intros H1 Hk H2 line trimmed.
  assert (trimmed = (k ++ ws2) ++ COLON :: trimRight rest) as Ht.
  { subst trimmed line. unfold TrimSpace.
    rewrite trimLeft_allSpace by done.
    assert (trimLeft (k ++ ws2 ++ COLON :: rest) = k ++ ws2 ++ COLON :: rest) as ->.
    { destruct Hk as [Hne Hk]. destruct k as [|c k]; [done|].
      inversion Hk as [|? ? [Hc _] _]; subst. simpl. by rewrite Hc. }
    rewrite app_assoc.
    by rewrite trimRight_app_nonspace by apply asciiSpace_COLON. }
  split.
  - rewrite Ht. destruct Hk as [Hne _]. by destruct k.
  - exists (length (k ++ ws2)). rewrite Ht. split; [|split].
    + apply Index_app_first. intros Hin. apply elem_of_app in Hin as [Hin|Hin].
      * by apply properKey_no_colon in Hin.
      * by apply allSpace_no_colon in Hin.
    + rewrite take_length_app. apply TrimSpace_nospace_app; [|done].
      by apply properKey_nospace.
    + rewrite drop_S_app. apply TrimSpace_trimRight.
Qed.

Lemma lineKey_anatomy (ws1 k ws2 rest : str) :
  allSpace ws1 -> properKey k -> allSpace ws2 ->
  lineKey (ws1 ++ k ++ ws2 ++ COLON :: rest) = Some (ToLower k).
Proof.
  intros H1 Hk H2. unfold lineKey.
  destruct (line_anatomy ws1 k ws2 rest H1 Hk H2) as (_ & i & Hi & Hkey & _).
  by rewrite Hi, Hkey.
Qed.

(** Lines without a colon and blank lines have no key. *)
Lemma lineKey_no_colon (line : str) : COLON ∉ line -> lineKey line = None.
Proof.
  intros Hn. unfold lineKey.
  assert (Index (TrimSpace line) COLON = None) as ->; [|done].
  apply Index_None. intros Hin. by apply TrimSpace_elem in Hin.
Qed.

Lemma lineKey_blank (line : str) : allSpace line -> lineKey line = None.
Proof. intros H. apply lineKey_no_colon. by apply allSpace_no_colon. Qed.

End LineAnatomy.

(** ** The key tables *)

Section KeyTables.

Lemma asciiSpace_lowerByte (c : ascii) : asciiSpace (lowerByte c) = asciiSpace c.
Proof. destruct c as [[] [] [] [] [] [] [] []]; reflexivity. Qed.

(** A text whose lower-case form is a key proper is one itself. *)
Lemma properKey_ToLower (k : str) : properKey (ToLower k) -> properKey k.
Proof.
  intros [Hne Hall]. split.
  - intros ->. by apply Hne.
  - unfold ToLower in Hall. rewrite Forall_map in Hall.
    eapply Forall_impl; [|exact Hall]. intros c [Hs Hc]. split.
    + by rewrite <- asciiSpace_lowerByte.
    + intros ->. by apply Hc.
Qed.

Lemma mapIndex_list_to_map (l : list (str * bool)) (k : str) :
  mapIndex (list_to_map l) k = true -> (k, true) ∈ l.
Proof.
  unfold mapIndex. intros H.
  destruct (list_to_map l !! k) as [b|] eqn:E; simpl in H; [|done]. subst.
  by apply elem_of_list_to_map_2 in E.
Qed.

Lemma properKey_decide (k : str) :
  (isEmpty k = false ∧
   forallb (fun c => negb (asciiSpace c) && negb (Ascii.eqb c COLON)) k = true) ->
  properKey k.
Proof.
  intros [Hne Hall]. split; [by destruct k|].
  apply Forall_forall. intros c Hc.
  rewrite forallb_forall in Hall. apply Hall in Hc.
  apply andb_true_iff in Hc as [H1 H2].
  apply negb_true_iff in H1, H2. apply Ascii.eqb_neq in H2. done.
Qed.

Lemma attachmentKeys_proper : aliasesProper attachmentKeys.
Proof.
  intros k Hk. apply mapIndex_list_to_map in Hk.
  repeat (apply elem_of_cons in Hk as [Hk|Hk];
          [apply (f_equal fst) in Hk; simpl in Hk; subst k;
           apply properKey_decide; by vm_compute|]).
  by apply not_elem_of_nil in Hk.
Qed.

Lemma mrKeys_proper : aliasesProper mrKeys.
Proof.
  intros k Hk. apply mapIndex_list_to_map in Hk.
  repeat (apply elem_of_cons in Hk as [Hk|Hk];
          [apply (f_equal fst) in Hk; simpl in Hk; subst k;
           apply properKey_decide; by vm_compute|]).
  by apply not_elem_of_nil in Hk.
Qed.

(** The case labels of the two parsers are the keys of the two tables. *)
Lemma oneOf_elim (k : str) (labels : list str) (keys : gmap str bool) :
  forallb (mapIndex keys) labels = true ->
  oneOf k labels = true -> mapIndex keys k = true.
Proof.
  intros Hall Hk. unfold oneOf in Hk. apply bool_decide_eq_true in Hk.
  rewrite forallb_forall in Hall. apply Hall. by apply list_elem_of_In.
Qed.

End KeyTables.

(** ** One line through the parsers *)

Section ParseLine.

(** A line that merge leaves alone is ignored by the attachment parser. *)
Lemma parseAttachmentLine_survivor (st : AttachmentFields * bool) (line : str) :
  matchesSchema attachmentKeys line = false -> parseAttachmentLine st line = st.
Proof.
  unfold matchesSchema, lineKey, parseAttachmentLine. destruct st as [fields has].
  destruct (isEmpty (TrimSpace line)); [done|].
  destruct (Index (TrimSpace line) COLON) as [i|]; [|done].
  intros Hk. destruct (isEmpty _); [done|].
  repeat match goal with
  | |- context [oneOf ?k ?l] =>
      destruct (oneOf k l) eqn:E;
      [apply (oneOf_elim _ _ attachmentKeys) in E; [congruence|by vm_compute]|clear E]
  end.
  done.
Qed.

Lemma parseMRLine_survivor (st : MRFields * bool) (line : str) :
  matchesSchema mrKeys line = false -> parseMRLine st line = st.
Proof.
  unfold matchesSchema, lineKey, parseMRLine. destruct st as [fields has].
  destruct (isEmpty (TrimSpace line)); [done|].
  destruct (Index (TrimSpace line) COLON) as [i|]; [|done].
  intros Hk. destruct (isEmpty _); [done|].
  repeat match goal with
  | |- context [oneOf ?k ?l] =>
      destruct (oneOf k l) eqn:E;
      [apply (oneOf_elim _ _ mrKeys) in E; [congruence|by vm_compute]|clear E]
  end.
  done.
Qed.

(** A schema line with an empty value is ignored by the parsers ... *)
Lemma parseAttachmentLine_empty_value
    (keys : gmap str bool) (st : AttachmentFields * bool) (line : str) :
  aliasesProper keys -> emptyValueLine keys line -> parseAttachmentLine st line = st.
Proof.
  intros Hp (ws1 & k & ws2 & ws3 & -> & H1 & H2 & H3 & Hk).
  apply Hp, properKey_ToLower in Hk.
  destruct (line_anatomy ws1 k ws2 ws3 H1 Hk H2) as (Hne & i & Hi & _ & Hv).
  unfold parseAttachmentLine. destruct st as [fields has].
  destruct (TrimSpace (ws1 ++ k ++ ws2 ++ COLON :: ws3)) as [|c t] eqn:Et; [done|].
  cbn [isEmpty]. rewrite Hi, Hv.
  apply TrimSpace_nil_allSpace in H3. by rewrite H3.
Qed.

Lemma parseMRLine_empty_value
    (keys : gmap str bool) (st : MRFields * bool) (line : str) :
  aliasesProper keys -> emptyValueLine keys line -> parseMRLine st line = st.
Proof.
  intros Hp (ws1 & k & ws2 & ws3 & -> & H1 & H2 & H3 & Hk).
  apply Hp, properKey_ToLower in Hk.
  destruct (line_anatomy ws1 k ws2 ws3 H1 Hk H2) as (Hne & i & Hi & _ & Hv).
  unfold parseMRLine. destruct st as [fields has].
  destruct (TrimSpace (ws1 ++ k ++ ws2 ++ COLON :: ws3)) as [|c t] eqn:Et; [done|].
  cbn [isEmpty]. rewrite Hi, Hv.
  apply TrimSpace_nil_allSpace in H3. by rewrite H3.
Qed.

(** ... and matches the schema, so that merge drops it. *)
Lemma emptyValueLine_matches (keys : gmap str bool) (line : str) :
  aliasesProper keys -> emptyValueLine keys line -> matchesSchema keys line = true.
Proof.
  intros Hp (ws1 & k & ws2 & ws3 & -> & H1 & H2 & H3 & Hk).
  unfold matchesSchema. rewrite lineKey_anatomy; [done|done| |done].
  by apply properKey_ToLower, Hp.
Qed.

Lemma fold_left_ignored {S : Type} (step : S -> str -> S) (ls : list str) (st : S) :
  Forall (fun l => ∀ st, step st l = st) ls -> fold_left step ls st = st.
Proof.
  induction 1 as [|l ls Hl _ IH]; simpl; [done|]. by rewrite Hl.
Qed.

End ParseLine.

(** ** The codec: preservation and the empty-value asymmetry *)

Section Codec.

Lemma SetAttachmentFields_assemble (issue : Issue) (fields : option AttachmentFields) :
  SetAttachmentFields (Some issue) fields =
  assemble (FormatAttachmentFields fields)
           (collected attachmentKeys (Description issue)).
Proof. reflexivity. Qed.

Lemma SetMRFields_assemble (issue : Issue) (fields : option MRFields) :
  SetMRFields (Some issue) fields =
  assemble (FormatMRFields fields) (collected mrKeys (Description issue)).
Proof. reflexivity. Qed.

Lemma assemble_nil (formatted : str) : assemble formatted [] = formatted.
Proof. by destruct formatted. Qed.


Lemma collected_all_match (keys : gmap str bool) (lines : list str) :
  Forall (fun l => matchesSchema keys l = true ∧ noLF l) lines ->
  collected keys (Join lines [LF]) = [].
Proof.
  intros Hall. unfold collected.
  destruct (isEmpty (Join lines [LF])) eqn:Ee; [done|]. cbn [negb].
  assert (lines ≠ []) as Hne by (by intros ->).
  rewrite Split_Join; [|done|].
  - rewrite collect_filter. simpl. clear Ee Hne.
    induction Hall as [|l ls [Hl _] _ IH]; simpl; [done|].
    by rewrite Hl.
  - eapply Forall_impl; [|exact Hall]. by intros l [_ Hl].
Qed.

(** C9. The asymmetry of parse and merge on schema lines with an empty
    value, under the attachment schema. For every line made of an alias (in
    any case, white space around it allowed), the colon and nothing but
    white space after it: the parser passes over it, whatever it has seen
    so far, while the collecting loop of merge drops it, whatever it has
    collected so far, because its key matches the schema. For a description
    made only of such lines, parse reports no fields and merge returns the
    formatted block alone. *)
Theorem empty_value_asymmetry
    (issue : Issue) (lines : list str) (fields : option AttachmentFields) :
  Forall (fun l => emptyValueLine attachmentKeys l ∧ noLF l) lines ->
  Description issue = Join lines [LF] ->
  Forall (fun l =>
            (∀ st, parseAttachmentLine st l = st) ∧
            matchesSchema attachmentKeys l = true ∧
            (∀ acc, collectOtherLine attachmentKeys acc l = acc)) lines ∧
  ParseAttachmentFields (Some issue) = None ∧
  SetAttachmentFields (Some issue) fields = FormatAttachmentFields fields.
Proof.
  intros Hall Hdesc.
  assert (Forall (fun l =>
            (∀ st, parseAttachmentLine st l = st) ∧
            matchesSchema attachmentKeys l = true ∧
            (∀ acc, collectOtherLine attachmentKeys acc l = acc)) lines) as Hper.
  { eapply Forall_impl; [|exact Hall]. intros l [Hl _].
    pose proof (emptyValueLine_matches _ _ attachmentKeys_proper Hl) as Hm.
    split; [|split; [done|]].
    - intros st.
      apply (parseAttachmentLine_empty_value attachmentKeys); [|done].
      apply attachmentKeys_proper.
    - intros acc. by rewrite collectOtherLine_spec, Hm. }
  split; [done|]. split.
  - unfold ParseAttachmentFields. rewrite Hdesc.
    destruct (isEmpty (Join lines [LF])) eqn:Ee; [done|].
    assert (lines ≠ []) as Hne by (by intros ->).
    rewrite Split_Join; [|done|].
    + rewrite fold_left_ignored; [done|].
      eapply Forall_impl; [|exact Hper]. by intros l [Hl _].
    + eapply Forall_impl; [|exact Hall]. by intros l [_ Hl].
  - rewrite SetAttachmentFields_assemble, Hdesc, collected_all_match.
    + apply assemble_nil.
    + apply Forall_forall. intros l Hl.
      rewrite Forall_forall in Hall, Hper. split.
      * by apply Hper.
      * by apply Hall.
Qed.

(** X22. The asymmetry of parse and merge under the merge-request schema:
    a line made of an alias, the colon and nothing but white space is passed
    over by [ParseMRFields] and dropped by [SetMRFields]; a description of
    only such lines parses to no fields and merges to the formatted block
    alone. *)
Lemma mr_empty_value_lines
    (issue : Issue) (lines : list str) (fields : option MRFields) :
  Forall (fun l => emptyValueLine mrKeys l ∧ noLF l) lines ->
  Description issue = Join lines [LF] ->
  Forall (fun l =>
            (∀ st, parseMRLine st l = st) ∧
            matchesSchema mrKeys l = true ∧
            (∀ acc, collectOtherLine mrKeys acc l = acc)) lines ∧
  ParseMRFields (Some issue) = None ∧
  SetMRFields (Some issue) fields = FormatMRFields fields.
Proof.
  intros Hall Hdesc.
  assert (Forall (fun l =>
            (∀ st, parseMRLine st l = st) ∧
            matchesSchema mrKeys l = true ∧
            (∀ acc, collectOtherLine mrKeys acc l = acc)) lines) as Hper.
  { eapply Forall_impl; [|exact Hall]. intros l [Hl _].
    pose proof (emptyValueLine_matches _ _ mrKeys_proper Hl) as Hm.
    split; [|split; [done|]].
    - intros st. apply (parseMRLine_empty_value mrKeys); [|done].
      apply mrKeys_proper.
    - intros acc. by rewrite collectOtherLine_spec, Hm. }
  split; [done|]. split.
  - unfold ParseMRFields. rewrite Hdesc.
    destruct (isEmpty (Join lines [LF])) eqn:Ee; [done|].
    assert (lines ≠ []) as Hne by (by intros ->).
    rewrite Split_Join; [|done|].
    + rewrite fold_left_ignored; [done|].
      eapply Forall_impl; [|exact Hper]. by intros l [Hl _].
    + eapply Forall_impl; [|exact Hall]. by intros l [_ Hl].
  - rewrite SetMRFields_assemble, Hdesc, collected_all_match.
    + apply assemble_nil.
    + apply Forall_forall. intros l Hl.
      rewrite Forall_forall in Hall, Hper. split.
      * by apply Hper.
      * by apply Hall.
Qed.

End Codec.

(** ** Formatting, and parsing what was formatted *)

(** Decide the case labels of a parser's switch on a closed key. *)
Ltac eval_oneOf :=
  repeat match goal with
  | |- context [oneOf ?k ?l] =>
      let b := eval vm_compute in (oneOf k l) in
      change (oneOf k l) with b
  end;
  cbv iota.

Section RoundTrip.

Lemma appendField_app (lines : list str) (label value : str) :
  appendField lines label value = lines ++ appendField [] label value.
Proof. unfold appendField. destruct (isEmpty value); by rewrite ?app_nil_r. Qed.

Lemma TrimSpace_space_value (v : str) : TrimSpace (" " ++ v) = TrimSpace v.
Proof. reflexivity. Qed.

(** A formatted line [label ++ value], seen as key, colon and rest. *)
Lemma label_line (k v : str) :
  (k ++ ": ") ++ v = [] ++ k ++ [] ++ COLON :: (" " ++ v).
Proof. simpl. by rewrite <- app_assoc. Qed.

Lemma cleanValue_nonempty_line (k v : str) :
  noLF k -> noLF v -> noLF ((k ++ ": ") ++ v).
Proof.
  unfold noLF. intros Hk Hv Hin.
  apply elem_of_app in Hin as [Hin|Hin]; [|done].
  apply elem_of_app in Hin as [Hin|Hin]; [done|].
  apply elem_of_cons in Hin as [Hin|Hin]; [done|].
  apply elem_of_cons in Hin as [Hin|Hin]; [done|].
  by apply not_elem_of_nil in Hin.
Qed.

(** The attachment parser on one formatted line. *)
Lemma parseAttachmentLine_label
    (k v : str) (fields : AttachmentFields) (has : bool) :
  properKey k -> TrimSpace v ≠ [] ->
  parseAttachmentLine (fields, has) ((k ++ ": ") ++ v) =
    let value := TrimSpace v in
    let k := ToLower k in
    if oneOf k ["attached_molecule"; "attached-molecule"; "attachedmolecule"]
    then (mkAttachmentFields value (AttachedAt fields) (AttachedArgs fields), true)
    else if oneOf k ["attached_at"; "attached-at"; "attachedat"]
    then (mkAttachmentFields (AttachedMolecule fields) value (AttachedArgs fields), true)
    else if oneOf k ["attached_args"; "attached-args"; "attachedargs"]
    then (mkAttachmentFields (AttachedMolecule fields) (AttachedAt fields) value, true)
    else (fields, has).
Proof.
  intros Hk Hv. rewrite label_line.
  assert (allSpace []) as Hnil by constructor.
  destruct (line_anatomy [] k [] (" " ++ v) Hnil Hk Hnil) as (Hne & i & Hi & Hkey & Hval).
  unfold parseAttachmentLine.
  destruct (TrimSpace ([] ++ k ++ [] ++ COLON :: " " ++ v)) as [|c t] eqn:Et; [done|].
  cbn [isEmpty]. rewrite Hi, Hkey, Hval, TrimSpace_space_value.
  destruct (TrimSpace v) as [|c' t']; [done|]. done.
Qed.


(** A formatted line matches the schema of its label, whatever the value. *)
Lemma label_line_matches (keys : gmap str bool) (k v : str) :
  properKey k -> mapIndex keys (ToLower k) = true ->
  matchesSchema keys ((k ++ ": ") ++ v) = true.
Proof.
  intros Hk Hm. rewrite label_line. unfold matchesSchema.
  rewrite lineKey_anatomy; [done|constructor|done|constructor].
Qed.

(** One [appendField] of the formatter through the parser: a clean value
    comes back as the field [set] stores it. *)
Ltac solve_field lemma :=
  let c := fresh "c" in
  let t := fresh "t" in
  let Hclean := fresh "Hclean" in
  let Hlf := fresh "Hlf" in
  intros [Hclean Hlf];
  unfold appendField;
  match goal with |- context [isEmpty ?v] => destruct v as [|c t] end;
  [ simpl; by rewrite ?orb_false_r | ];
  cbn [isEmpty negb]; rewrite app_nil_l; cbn [fold_left];
  match goal with
  | |- context [?step ?st (?label ++ c :: t)] =>
      let k := eval vm_compute in (take (length label - 2) label) in
      change (label ++ c :: t) with ((k ++ ": ") ++ c :: t)
  end;
  rewrite lemma;
  [ cbv zeta; rewrite Hclean; eval_oneOf; by rewrite ?orb_true_r
  | apply properKey_decide; by vm_compute
  | by rewrite Hclean ].

Lemma parsed_attached_molecule (f : AttachmentFields) (h : bool) (v : str) :
  cleanValue v -> AttachedMolecule f = [] ->
  fold_left parseAttachmentLine (appendField [] "attached_molecule: " v) (f, h) =
  (mkAttachmentFields v (AttachedAt f) (AttachedArgs f), h || negb (isEmpty v)).
Proof.
  destruct f as [m a g]. simpl. intros Hv ->. revert Hv.
  solve_field parseAttachmentLine_label.
Qed.

Lemma parsed_attached_at (f : AttachmentFields) (h : bool) (v : str) :
  cleanValue v -> AttachedAt f = [] ->
  fold_left parseAttachmentLine (appendField [] "attached_at: " v) (f, h) =
  (mkAttachmentFields (AttachedMolecule f) v (AttachedArgs f), h || negb (isEmpty v)).
Proof.
  destruct f as [m a g]. simpl. intros Hv ->. revert Hv.
  solve_field parseAttachmentLine_label.
Qed.

Lemma parsed_attached_args (f : AttachmentFields) (h : bool) (v : str) :
  cleanValue v -> AttachedArgs f = [] ->
  fold_left parseAttachmentLine (appendField [] "attached_args: " v) (f, h) =
  (mkAttachmentFields (AttachedMolecule f) (AttachedAt f) v, h || negb (isEmpty v)).
Proof.
  destruct f as [m a g]. simpl. intros Hv ->. revert Hv.
  solve_field parseAttachmentLine_label.
Qed.








Lemma attachmentLines_app (f : AttachmentFields) :
  attachmentLines f =
  appendField [] "attached_molecule: " (AttachedMolecule f) ++
  appendField [] "attached_at: " (AttachedAt f) ++
  appendField [] "attached_args: " (AttachedArgs f).
Proof.
  unfold attachmentLines.
  rewrite (appendField_app (appendField _ _ _)).
  rewrite (appendField_app (appendField _ _ _)).
  by rewrite <- !app_assoc.
Qed.

Lemma mrLines_app (f : MRFields) :
  mrLines f =
  appendField [] "branch: " (Branch f) ++
  appendField [] "target: " (Target f) ++
  appendField [] "source_issue: " (SourceIssue f) ++
  appendField [] "worker: " (Worker f) ++
  appendField [] "rig: " (Rig f) ++
  appendField [] "merge_commit: " (MergeCommit f) ++
  appendField [] "close_reason: " (CloseReason f).
Proof.
  unfold mrLines.
  repeat rewrite (appendField_app (appendField _ _ _)).
  by rewrite <- !app_assoc.
Qed.

Lemma noLF_decide (k : str) :
  forallb (fun c => negb (Ascii.eqb c LF)) k = true -> noLF k.
Proof.
  intros H Hin. rewrite forallb_forall in H.
  apply list_elem_of_In, H in Hin. by rewrite Ascii.eqb_refl in Hin.
Qed.

(** One [appendField] yields at most one line; the line matches the schema
    of its label and holds a line feed only if the value does. *)
Lemma appendField_matches (keys : gmap str bool) (k v : str) :
  properKey k -> mapIndex keys (ToLower k) = true -> noLF k -> noLF v ->
  Forall (fun l => matchesSchema keys l = true ∧ noLF l)
         (appendField [] (k ++ ": ") v).
Proof.
  intros Hk Hm Hkl Hv. unfold appendField.
  destruct (isEmpty v); [constructor|]. rewrite app_nil_l.
  constructor; [|constructor]. split.
  - by apply label_line_matches.
  - by apply cleanValue_nonempty_line.
Qed.

Ltac solve_label :=
  match goal with
  | |- Forall _ (appendField [] ?label ?v) =>
      let k := eval vm_compute in (take (length label - 2) label) in
      change label with (k ++ ": ");
      apply appendField_matches;
      [ apply properKey_decide; by vm_compute
      | by vm_compute
      | apply noLF_decide; by vm_compute
      | done ]
  end.

Lemma attachmentLines_match (f : AttachmentFields) :
  oneLineValues (Some f) ->
  Forall (fun l => matchesSchema attachmentKeys l = true ∧ noLF l)
         (attachmentLines f).
Proof.
  intros (H1 & H2 & H3). rewrite attachmentLines_app.
  repeat (apply Forall_app; split); solve_label.
Qed.

Lemma mrLines_match (f : MRFields) :
  noLF (Branch f) -> noLF (Target f) -> noLF (SourceIssue f) ->
  noLF (Worker f) -> noLF (Rig f) -> noLF (MergeCommit f) ->
  noLF (CloseReason f) ->
  Forall (fun l => matchesSchema mrKeys l = true ∧ noLF l) (mrLines f).
Proof.
  intros H1 H2 H3 H4 H5 H6 H7. rewrite mrLines_app.
  repeat (apply Forall_app; split); solve_label.
Qed.

(** Lines that match a schema are not empty, so that joining them yields
    the empty text only for no line at all. *)
Lemma Join_matching_nil (keys : gmap str bool) (ls : list str) :
  Forall (fun l => matchesSchema keys l = true ∧ noLF l) ls ->
  Join ls [LF] = [] -> ls = [].
Proof.
  intros Hall Hj. apply Join_nil_inv in Hj as [->| ->]; [done| |done].
  inversion Hall as [|? ? [Hm _] _]; subst.
  unfold matchesSchema in Hm. by rewrite lineKey_blank in Hm by constructor.
Qed.

Lemma cleanAttachment_oneLine (f : AttachmentFields) :
  cleanAttachment f -> oneLineValues (Some f).
Proof. by intros ([_ H1] & [_ H2] & [_ H3]). Qed.

Lemma parse_formatted_attachment (f : AttachmentFields) (issue : Issue) :
  cleanAttachment f -> f ≠ zeroAttachmentFields ->
  Description issue = FormatAttachmentFields (Some f) ->
  ParseAttachmentFields (Some issue) = Some f.
Proof.
  intros Hc Hnz Hd.
  pose proof (attachmentLines_match f (cleanAttachment_oneLine f Hc)) as Hm.
  destruct Hc as (H1 & H2 & H3).
  unfold ParseAttachmentFields. rewrite Hd. simpl FormatAttachmentFields.
  assert (attachmentLines f ≠ []) as Hne.
  { intros E. apply Hnz. rewrite attachmentLines_app in E.
    destruct f as [[|??] [|??] [|??]]; by simpl in E. }
  destruct (isEmpty (Join (attachmentLines f) [LF])) eqn:Ee.
  { exfalso. apply Hne. apply (Join_matching_nil attachmentKeys); [done|].
    by destruct (Join (attachmentLines f) [LF]). }
  rewrite Split_Join; [|done|].
  - rewrite attachmentLines_app, !fold_left_app.
    rewrite parsed_attached_molecule, parsed_attached_at, parsed_attached_args by done.
    destruct f as [[|??] [|??] [|??]]; simpl in *; done.
  - eapply Forall_impl; [|exact Hm]. by intros l [_ Hl].
Qed.


End RoundTrip.

(** ** What the parser returns is clean *)

Section ParsedClean.

Lemma drop_elem (c : ascii) (n : nat) (s : str) : c ∈ drop n s -> c ∈ s.
Proof.
  intros H. rewrite <- (take_drop n s). apply elem_of_app. by right.
Qed.

(** The value the parsers read off a line. *)
Lemma line_value_clean (line : str) (i : nat) :
  noLF line -> cleanValue (TrimSpace (drop (S i) (TrimSpace line))).
Proof.
  intros Hlf. split; [apply TrimSpace_idem|].
  intros Hin. apply Hlf.
  by apply TrimSpace_elem, drop_elem, TrimSpace_elem in Hin.
Qed.

Lemma parseAttachmentLine_parsedState (st : AttachmentFields * bool) (line : str) :
  noLF line -> parsedState st -> parsedState (parseAttachmentLine st line).
Proof.
  intros Hlf Hst. unfold parseAttachmentLine. destruct st as [f h].
  destruct (isEmpty (TrimSpace line)); [done|].
  destruct (Index (TrimSpace line) COLON) as [i|]; [|done].
  pose proof (line_value_clean line i Hlf) as Hv.
  destruct (TrimSpace (drop (S i) (TrimSpace line))) as [|c v] eqn:Ev; [done|].
  cbn [isEmpty]. destruct Hst as [(H1 & H2 & H3) Hnz].
  cbn [fst snd] in H1, H2, H3, Hnz.
  repeat match goal with
  | |- context [oneOf ?k ?l] => destruct (oneOf k l)
  end;
  (split;
   [ unfold cleanAttachment;
     cbn [fst snd AttachedMolecule AttachedAt AttachedArgs]; auto
   | cbn [fst snd]; first [by intros _ [=] | done] ]).
Qed.

Lemma fold_parsedState (ls : list str) (st : AttachmentFields * bool) :
  Forall noLF ls -> parsedState st ->
  parsedState (fold_left parseAttachmentLine ls st).
Proof.
  intros Hls. revert st. induction Hls as [|l ls Hl _ IH]; intros st Hst; [done|].
  simpl. by apply IH, parseAttachmentLine_parsedState.
Qed.

Lemma parsed_fields_clean (issue : Issue) (f : AttachmentFields) :
  ParseAttachmentFields (Some issue) = Some f ->
  cleanAttachment f ∧ f ≠ zeroAttachmentFields.
Proof.
  unfold ParseAttachmentFields. destruct (isEmpty (Description issue)); [done|].
  pose proof (fold_parsedState (Split (Description issue) LF)
                (zeroAttachmentFields, false)) as H.
  destruct (fold_left parseAttachmentLine _ _) as [f' h].
  destruct h; [|done]. intros [= ->].
  destruct H as [Hc Hnz].
  - apply Split_pieces_no_sep.
  - split; [|done]. repeat split; try done; apply not_elem_of_nil.
  - split; [done|]. by apply Hnz.
Qed.

(** X21. The overlay is round-trip stable: formatting what
    [ParseAttachmentFields] returned and parsing again yields the same
    fields. *)
Lemma parse_format_parse (issue issue' : Issue) (f : AttachmentFields) :
  ParseAttachmentFields (Some issue) = Some f ->
  Description issue' = FormatAttachmentFields (Some f) ->
  ParseAttachmentFields (Some issue') = Some f.
Proof.
  intros Hp Hd. apply parsed_fields_clean in Hp as [Hc Hnz].
  by apply parse_formatted_attachment.
Qed.

End ParsedClean.

(** ** Round trip and idempotence *)

Section RoundTripTheorems.





End RoundTripTheorems.

Section Idempotence.

Variable keys : gmap str bool.

Lemma survivors_keep (text : str) :
  Forall (fun l => matchesSchema keys l = false) (survivors keys text).
Proof.
  unfold survivors. apply Forall_forall. intros l Hl.
  apply filter_In in Hl as [_ Hl]. by apply negb_true_iff in Hl.
Qed.

Lemma filter_keep_all (ls : list str) :
  Forall (fun l => matchesSchema keys l = false) ls ->
  List.filter (fun l => negb (matchesSchema keys l)) ls = ls.
Proof.
  induction 1 as [|l ls Hl _ IH]; simpl; [done|]. by rewrite Hl, IH.
Qed.

Lemma filter_keep_none (ls : list str) :
  Forall (fun l => matchesSchema keys l = true ∧ noLF l) ls ->
  List.filter (fun l => negb (matchesSchema keys l)) ls = [].
Proof.
  induction 1 as [|l ls [Hl _] _ IH]; simpl; [done|]. by rewrite Hl.
Qed.

(** The core of a description: its survivors without the blank ends. *)
Lemma core_facts (text : str) :
  let core := trimLeadingBlank (trimTrailingBlank (survivors keys text)) in
  Forall noLF core ∧ endsNonBlank core ∧
  Forall (fun l => matchesSchema keys l = false) core.
Proof.
  intros core.
  destruct (trim_both_split (survivors keys text))
    as (lead & trail & Hs & _ & _ & Hends).
  fold core in Hs, Hends.
  pose proof (survivors_noLF keys text) as Hlf.
  pose proof (survivors_keep text) as Hk.
  rewrite Hs in Hlf, Hk.
  apply Forall_app in Hlf as [_ Hlf]. apply Forall_app in Hlf as [Hlf _].
  apply Forall_app in Hk as [_ Hk]. apply Forall_app in Hk as [Hk _].
  done.
Qed.

(** Merging again: the survivors of the merged text are, up to blank ends,
    the survivors of the text that was merged. *)
Lemma remerge_core (fl : list str) (text : str) :
  Forall (fun l => matchesSchema keys l = true ∧ noLF l) fl ->
  trimLeadingBlank (trimTrailingBlank
    (survivors keys (assemble (Join fl [LF]) (collected keys text)))) =
  trimLeadingBlank (trimTrailingBlank (survivors keys text)).
Proof.
  intros Hfl. rewrite assemble_trim, collected_core.
  destruct (core_facts text) as (Hlf & Hends & Hkeep).
  set (core := trimLeadingBlank (trimTrailingBlank (survivors keys text))) in *.
  destruct (assemble_lines (Join fl [LF]) core Hlf Hends) as [-> _].
  assert (Forall (fun l => LF ∉ l) fl) as Hfl_lf.
  { eapply Forall_impl; [|exact Hfl]. by intros l [_ Hl]. }
  destruct (isEmpty (Join fl [LF])) eqn:Ef.
  - (* no formatted block *)
    destruct core as [|l core'] eqn:Ec; [done|].
    unfold survivors. rewrite Split_Join by done.
    rewrite filter_keep_all by done. by apply trim_both_fixed.
  - assert (fl ≠ []) as Hne by (by intros ->).
    destruct core as [|l core'] eqn:Ec; cbn [length Nat.eqb].
    + (* the formatted block alone *)
      unfold survivors. rewrite Split_Join by done.
      by rewrite filter_keep_none.
    + (* the formatted block, an empty line, the core *)
      unfold survivors.
      change (Join fl [LF] ++ [LF; LF] ++ Join (l :: core') [LF])
        with (Join fl [LF] ++ LF :: ([] ++ LF :: Join (l :: core') [LF])).
      rewrite !Split_app_sep, !Split_Join by done.
      rewrite !List.filter_app, filter_keep_none by done.
      rewrite (filter_keep_all (l :: core')) by done.
      replace (List.filter (fun l0 => negb (matchesSchema keys l0)) (Split [] LF))
        with [[] : str] by reflexivity.
      rewrite app_nil_l.
      change ([[]] ++ l :: core') with ([] :: l :: core').
      destruct (exists_last (l := l :: core')) as (r & x & E); [done|].
      assert (isBlank x = false) as Hx.
      { destruct Hends as [_ Hlast]. rewrite E in Hlast.
        by rewrite last_last in Hlast. }
      rewrite E, app_comm_cons, trimTrailingBlank_app_nonblank by done.
      rewrite <- app_comm_cons, <- E.
      change (trimLeadingBlank ([] :: l :: core'))
        with (trimLeadingBlank (l :: core')).
      apply trimLeadingBlank_fixed. by destruct Hends.
Qed.

(** Merging the merged text with the same formatted block changes nothing. *)
Lemma remerge (fl : list str) (text : str) :
  Forall (fun l => matchesSchema keys l = true ∧ noLF l) fl ->
  let merged := assemble (Join fl [LF]) (collected keys text) in
  assemble (Join fl [LF]) (collected keys merged) = merged.
Proof.
  intros Hfl merged. subst merged.
  rewrite (assemble_trim _ (collected keys (assemble _ _))).
  rewrite collected_core, remerge_core by done.
  by rewrite <- collected_core, <- assemble_trim.
Qed.

End Idempotence.

Section IdempotenceTheorem.

(** C10. Merge is idempotent in its text argument under the attachment
    schema: for every description and every attachment field set whose
    values hold no line feed, merging the merged description with the same
    field set returns the merged description. *)
Theorem merge_idempotent
    (issue merged : Issue) (fields : option AttachmentFields) :
  oneLineValues fields ->
  Description merged = SetAttachmentFields (Some issue) fields ->
  SetAttachmentFields (Some merged) fields =
  SetAttachmentFields (Some issue) fields.
Proof.
  intros Hv Hd. rewrite !SetAttachmentFields_assemble, Hd.
  rewrite SetAttachmentFields_assemble.
  destruct fields as [f|].
  - apply (remerge attachmentKeys (attachmentLines f)).
    by apply attachmentLines_match.
  - apply (remerge attachmentKeys []). constructor.
Qed.

Lemma merge_idempotent_witness :
  oneLineValues (Some (mkAttachmentFields "gt-42" "2025-01-01T00:00:00Z" "")) ∧
  SetAttachmentFields
    (Some (mkIssue "gt-1" "" "attached_molecule: gt-42
attached_at: 2025-01-01T00:00:00Z

Remember the tests.

note: keep" "pinned" 2 ""))
    (Some (mkAttachmentFields "gt-42" "2025-01-01T00:00:00Z" "")) =
  SetAttachmentFields
    (Some (mkIssue "gt-1" "" "Attached-Molecule: gt-7

Remember the tests.

note: keep
attached_args:
" "pinned" 2 ""))
    (Some (mkAttachmentFields "gt-42" "2025-01-01T00:00:00Z" "")).
Proof.
  split.
  - repeat split; apply noLF_decide; reflexivity.
  - apply merge_idempotent.
    + repeat split; apply noLF_decide; reflexivity.
    + reflexivity.
Defined.

End IdempotenceTheorem.

(** ** The collaborators *)

Section Collaborators.

Lemma setFsys_same (w : World) : setFsys w (fsys w) = w.
Proof. by destruct w. Qed.

Lemma Show_healthy (b : Beads) (id : str) (w : World) (issue : Issue) :
  healthy w -> bdIssues w !! id = Some issue -> Show b id w = (Ok issue, w).
Proof.
  unfold healthy, Show, run. destruct w as [db faults fs err now]; simpl.
  by intros -> ->.
Qed.

(** What a successful [Show] tells. *)
Lemma Show_inv (b : Beads) (id : str) (w w1 : World) (issue : Issue) :
  Show b id w = (Ok issue, w1) ->
  bdIssues w !! id = Some issue ∧
  bdIssues w1 = bdIssues w ∧ fsys w1 = fsys w ∧ stderr w1 = stderr w ∧
  clock w1 = clock w ∧ (healthy w -> w1 = w).
Proof.
  unfold healthy, Show, run. destruct w as [db faults fs err now]; simpl.
  destruct faults as [|[e|] rest]; destruct (db !! id) as [i|] eqn:E;
    intros H; simplify_eq; simpl; repeat split; done.
Qed.

Lemma Update_healthy (b : Beads) (id : str) (opts : UpdateOptions)
    (w : World) (issue : Issue) :
  healthy w -> bdIssues w !! id = Some issue ->
  Update b id opts w =
  (None, withIssues w (<[id := applyUpdate opts issue]> (bdIssues w))).
Proof.
  unfold healthy, Update, run, withIssues.
  destruct w as [db faults fs err now]; simpl. by intros -> ->.
Qed.

(** [bd] fails on the run that would persist the update. *)
Lemma Update_fault (b : Beads) (id : str) (opts : UpdateOptions)
    (w : World) (e : error) (rest : list (option error)) :
  bdFaults w = Some e :: rest ->
  Update b id opts w =
  (Some e, mkWorld (bdIssues w) rest (fsys w) (stderr w) (clock w)).
Proof.
  unfold Update, run. destruct w as [db faults fs err now]; simpl. by intros ->.
Qed.

Lemma applyUpdate_description (d : str) (i : Issue) :
  applyUpdate (descriptionOnly d) i = withDescription i d.
Proof. reflexivity. Qed.

(** [OpenFile] on a path that can be appended to. *)
Lemma OpenFile_appendable (p : path) (fs : FS) :
  appendable p fs ->
  OpenFile p fs =
  (Ok p, match files fs !! p with
         | Some _ => fs
         | None => setFiles fs (<[p := []]> (files fs))
         end).
Proof.
  intros (Hnd & Hpar & Hro & _). unfold OpenFile.
  rewrite (bool_decide_eq_false_2 _ Hnd), (bool_decide_eq_true_2 _ Hpar).
  cbn [negb]. destruct (files fs !! p); by rewrite (bool_decide_eq_false_2 _ Hro).
Qed.

(** [OpenFile] when the directory that should hold the file is missing. *)
Lemma OpenFile_no_directory (p : path) (fs : FS) :
  parent p ∉ dirs fs -> ∃ e, OpenFile p fs = (Err e, fs).
Proof.
  intros Hpar. unfold OpenFile. destruct (bool_decide (p ∈ dirs fs)); [eauto|].
  rewrite (bool_decide_eq_false_2 _ Hpar). cbn [negb]. eauto.
Qed.

Lemma escapeByte_noLF (c : ascii) : noLF (escapeByte c).
Proof.
  apply noLF_decide.
  destruct c as [[] [] [] [] [] [] [] []]; reflexivity.
Qed.

Lemma jsonString_noLF (v : str) : noLF (jsonString v).
Proof.
  unfold jsonString, noLF. intros Hin.
  apply elem_of_cons in Hin as [Hin|Hin]; [done|].
  apply elem_of_app in Hin as [Hin|Hin].
  - apply list_elem_of_In, in_flat_map in Hin as (c & _ & Hin).
    by apply list_elem_of_In, escapeByte_noLF in Hin.
  - apply elem_of_cons in Hin as [Hin|Hin]; [done|]. by apply not_elem_of_nil in Hin.
Qed.

Lemma noLF_app (a b : str) : noLF a -> noLF b -> noLF (a ++ b).
Proof. unfold noLF. intros Ha Hb Hin. apply elem_of_app in Hin as [|]; done. Qed.

Lemma jsonMember_noLF (name v : str) : noLF name -> noLF (jsonMember name v).
Proof.
  intros Hn. unfold jsonMember.
  do 4 (apply noLF_app; [try done; by apply noLF_decide|]).
  apply jsonString_noLF.
Qed.

Lemma jsonOmitEmpty_noLF (name v : str) : noLF name -> noLF (jsonOmitEmpty name v).
Proof.
  intros Hn. unfold jsonOmitEmpty. destruct (isEmpty v).
  - apply not_elem_of_nil.
  - apply noLF_app; [by apply noLF_decide|by apply jsonMember_noLF].
Qed.

(** The encoder yields one line. *)
Lemma json_Marshal_one_line (entry : DetachAuditEntry) :
  ∃ data, json_Marshal entry = Ok data ∧ noLF data.
Proof.
  unfold json_Marshal. eexists. split; [reflexivity|].
  repeat (apply noLF_app;
          [first [ apply jsonMember_noLF | apply jsonOmitEmpty_noLF | idtac ];
           by apply noLF_decide|]).
  by apply noLF_decide.
Qed.

End Collaborators.

(** ** The audit log *)

Section AuditLog.

Lemma LogDetachAudit_appendable (b : Beads) (entry : DetachAuditEntry) (w : World) :
  appendable (auditPath b) (fsys w) ->
  ∃ data,
    json_Marshal entry = Ok data ∧ noLF data ∧
    LogDetachAudit b entry w =
    (None, setFsys w (appended (fsys w) (auditPath b) (data ++ [LF]))).
Proof.
  intros Happ. destruct (json_Marshal_one_line entry) as (data & Hm & Hlf).
  exists data. split; [done|]. split; [done|].
  unfold LogDetachAudit. rewrite Hm, (OpenFile_appendable _ _ Happ).
  destruct Happ as (_ & _ & _ & Hfull). unfold Write, appended.
  destruct (files (fsys w) !! auditPath b) as [old|] eqn:E.
  - rewrite Hfull. by setoid_rewrite E.
  - simpl. rewrite Hfull. simpl.
    setoid_rewrite lookup_insert_eq. setoid_rewrite insert_insert_eq. simpl.
    by destruct w as [db faults [ds fl ro full] err now].
Qed.

Lemma LogDetachAudit_no_directory (b : Beads) (entry : DetachAuditEntry) (w : World) :
  [workDir b; ".beads"] ∉ dirs (fsys w) ->
  ∃ e, LogDetachAudit b entry w = (Some e, w).
Proof.
  intros Hdir. unfold LogDetachAudit.
  destruct (json_Marshal_one_line entry) as (data & -> & _).
  destruct (OpenFile_no_directory (auditPath b) (fsys w) Hdir) as (e & ->).
  exists (Wrap "opening audit log" e). by rewrite setFsys_same.
Qed.

(** C4, as the code has it. [LogDetachAudit] encodes the entry as one JSON
    line and appends it, with a line feed, to [<workDir>/.beads/audit.log];
    the file is created when it is absent, nothing else in the file system
    changes and what the file held stays in front. The directory is not
    created: when [<workDir>/.beads] does not exist the call returns an
    error and leaves the file system as it was. *)
Theorem audit_append (b : Beads) (entry : DetachAuditEntry) (w : World) :
  (appendable (auditPath b) (fsys w) ->
   ∃ data,
     json_Marshal entry = Ok data ∧ noLF data ∧
     LogDetachAudit b entry w =
       (None, setFsys w (appended (fsys w) (auditPath b) (data ++ [LF]))) ∧
     dirs (appended (fsys w) (auditPath b) (data ++ [LF])) = dirs (fsys w) ∧
     files (appended (fsys w) (auditPath b) (data ++ [LF])) =
       <[auditPath b := default [] (files (fsys w) !! auditPath b) ++ data ++ [LF]]>
         (files (fsys w))) ∧
  ([workDir b; ".beads"] ∉ dirs (fsys w) ->
   ∃ e, LogDetachAudit b entry w = (Some e, w)).
Proof.
  split.
  - intros Happ.
    destruct (LogDetachAudit_appendable b entry w Happ) as (data & Hm & Hlf & Hlog).
    exists data. by repeat split.
  - apply LogDetachAudit_no_directory.
Qed.

End AuditLog.

(** ** Attach and detach *)

Section AttachDetach.

(** The audit log touches the file system only. *)
Lemma LogDetachAudit_frame (b : Beads) (entry : DetachAuditEntry)
    (w w1 : World) (r : option error) :
  LogDetachAudit b entry w = (r, w1) -> w1 = setFsys w (fsys w1).
Proof.
  unfold LogDetachAudit. destruct (json_Marshal entry) as [data|e].
  - destruct (OpenFile (auditPath b) (fsys w)) as [[f|e] fs].
    + destruct (Write f (data ++ [LF]) fs) as [[e|] fs']; by intros [= <- <-].
    + by intros [= <- <-].
  - intros [= <- <-]. by rewrite setFsys_same.
Qed.

(** After a detach the description carries no attachment field. *)
Lemma stripped_parses_to_none (issue : Issue) :
  ParseAttachmentFields
    (Some (withDescription issue (SetAttachmentFields (Some issue) None))) = None.
Proof.
  unfold ParseAttachmentFields. cbn [Description withDescription].
  rewrite SetAttachmentFields_assemble, assemble_trim, collected_core.
  destruct (core_facts attachmentKeys (Description issue)) as (Hlf & Hends & Hkeep).
  set (core := trimLeadingBlank (trimTrailingBlank
                 (survivors attachmentKeys (Description issue)))) in *.
  destruct (assemble_lines (FormatAttachmentFields None) core Hlf Hends) as [-> _].
  cbn [FormatAttachmentFields isEmpty].
  destruct (isEmpty (Join core [LF])) eqn:Ee; [done|].
  assert (core ≠ []) as Hne by (by intros E; rewrite E in Ee).
  rewrite Split_Join by done.
  rewrite fold_left_ignored; [done|].
  eapply Forall_impl; [|exact Hkeep].
  intros l Hl st. by apply parseAttachmentLine_survivor.
Qed.

Lemma detached_parses_to_none (issue : Issue) :
  ParseAttachmentFields (Some (detached issue)) = None.
Proof.
  unfold detached.
  destruct (ParseAttachmentFields (Some issue)) eqn:E; [|done].
  apply stripped_parses_to_none.
Qed.

(** [DetachMoleculeWithAudit] on an attached record, [bd] answering. *)
Lemma DetachMoleculeWithAudit_attached
    (b : Beads) (id : str) (opts : DetachOptions) (w w1 : World)
    (issue : Issue) (a : AttachmentFields) (r : option error) :
  healthy w -> bdIssues w !! id = Some issue ->
  ParseAttachmentFields (Some issue) = Some a ->
  LogDetachAudit b (detachEntry w id opts a issue) w = (r, w1) ->
  DetachMoleculeWithAudit b id opts w =
  (Ok (detached issue),
   mkWorld (<[id := detached issue]> (bdIssues w)) [] (fsys w1)
           (match r with
            | Some e => stderr w ++ auditWarning e
            | None => stderr w
            end)
           (clock w)).
Proof.
  intros Hh Hi Ha Hlog. unfold DetachMoleculeWithAudit.
  rewrite (Show_healthy b id w issue Hh Hi), Ha.
  change (currentTimestamp w) with (clock w).
  change (mkDetachAuditEntry (clock w) _ id _ _ _ _)
    with (detachEntry w id opts a issue).
  rewrite Hlog.
  apply LogDetachAudit_frame in Hlog.
  unfold detached. rewrite Ha.
  set (newDesc := SetAttachmentFields (Some issue) None).
  set (w2 := match r with Some e => _ | None => w1 end).
  assert (w2 = mkWorld (bdIssues w) [] (fsys w1)
                 (match r with
                  | Some e => stderr w ++ auditWarning e
                  | None => stderr w
                  end) (clock w)) as ->.
  { subst w2. rewrite Hlog. unfold healthy in Hh.
    destruct w as [db faults fs err now]; simpl in *. subst faults.
    by destruct r. }
  rewrite (Update_healthy _ _ _ _ issue) by done.
  rewrite applyUpdate_description.
  apply Show_healthy; [done|]. apply lookup_insert_eq.
Qed.

Lemma DetachMoleculeWithAudit_unattached
    (b : Beads) (id : str) (opts : DetachOptions) (w w1 : World) (issue : Issue) :
  Show b id w = (Ok issue, w1) ->
  ParseAttachmentFields (Some issue) = None ->
  DetachMoleculeWithAudit b id opts w = (Ok issue, w1).
Proof. intros Hs Hp. unfold DetachMoleculeWithAudit. by rewrite Hs, Hp. Qed.

Lemma DetachMolecule_healthy (b : Beads) (id : str) (w : World) (issue : Issue) :
  healthy w -> bdIssues w !! id = Some issue ->
  DetachMolecule b id w =
  (Ok (detached issue),
   match ParseAttachmentFields (Some issue) with
   | None => w
   | Some _ => withIssues w (<[id := detached issue]> (bdIssues w))
   end).
Proof.
  intros Hh Hi. unfold DetachMolecule, detached.
  rewrite (Show_healthy b id w issue Hh Hi).
  destruct (ParseAttachmentFields (Some issue)) as [a|]; [|done].
  rewrite (Update_healthy _ _ _ _ issue) by done.
  rewrite applyUpdate_description.
  apply Show_healthy; [done|]. apply lookup_insert_eq.
Qed.

Lemma AttachMolecule_healthy
    (b : Beads) (id moleculeID : str) (w : World) (issue : Issue) :
  healthy w -> bdIssues w !! id = Some issue -> Status issue = StatusPinned ->
  AttachMolecule b id moleculeID w =
  (Ok (attached issue moleculeID (clock w)),
   withIssues w (<[id := attached issue moleculeID (clock w)]> (bdIssues w))).
Proof.
  intros Hh Hi Hs. unfold AttachMolecule, attached.
  rewrite (Show_healthy b id w issue Hh Hi).
  rewrite bool_decide_eq_false_2 by (by intros H).
  rewrite (Update_healthy _ _ _ _ issue) by done.
  rewrite applyUpdate_description.
  apply Show_healthy; [done|]. apply lookup_insert_eq.
Qed.


(** C6. For an attached record, with [bd] answering: when the append to the
    audit log fails, the detach goes on. It returns the stripped record and
    no error, the stripped description is what the database then holds for
    the record, the stripped description carries no attachment field, and
    the audit error shows only as a warning on standard error. *)
Theorem detach_survives_audit_failure
    (b : Beads) (id : str) (opts : DetachOptions) (w w1 : World)
    (issue : Issue) (a : AttachmentFields) (e : error) :
  healthy w -> bdIssues w !! id = Some issue ->
  ParseAttachmentFields (Some issue) = Some a ->
  LogDetachAudit b (detachEntry w id opts a issue) w = (Some e, w1) ->
  ∃ w',
    DetachMoleculeWithAudit b id opts w =
      (Ok (withDescription issue (SetAttachmentFields (Some issue) None)), w') ∧
    bdIssues w' !! id =
      Some (withDescription issue (SetAttachmentFields (Some issue) None)) ∧
    ParseAttachmentFields
      (Some (withDescription issue (SetAttachmentFields (Some issue) None))) = None ∧
    stderr w' = stderr w ++ auditWarning e.
Proof.
  intros Hh Hi Ha Hlog.
  pose proof (DetachMoleculeWithAudit_attached b id opts w w1 issue a (Some e)
                Hh Hi Ha Hlog) as H.
  unfold detached in H. rewrite Ha in H.
  eexists. split; [exact H|]. split; [|split].
  - simpl. apply lookup_insert_eq.
  - apply stripped_parses_to_none.
  - done.
Qed.

(** When it is the update that fails after the audit failed, the error
    returned is the update's, with its context; the audit error shows on
    standard error alone. *)
Lemma detach_reports_update_error
    (b : Beads) (id : str) (opts : DetachOptions) (w w1 : World)
    (issue : Issue) (a : AttachmentFields) (e eu : error)
    (rest : list (option error)) :
  bdFaults w = None :: Some eu :: rest -> bdIssues w !! id = Some issue ->
  ParseAttachmentFields (Some issue) = Some a ->
  (∀ w0, fsys w0 = fsys w -> ∃ w0',
     LogDetachAudit b (detachEntry w0 id opts a issue) w0 = (Some e, w0')) ->
  ∃ w',
    DetachMoleculeWithAudit b id opts w =
      (Err (Wrap "updating pinned bead" eu), w') ∧
    bdIssues w' = bdIssues w ∧
    stderr w' = stderr w ++ auditWarning e.
Proof.
  intros Hf Hi Ha Hlog. unfold DetachMoleculeWithAudit, Show, run.
  rewrite Hf, Hi, Ha.
  set (w0 := mkWorld (bdIssues w) (Some eu :: rest) (fsys w) (stderr w) (clock w)).
  destruct (Hlog w0 eq_refl) as (w0' & Hl).
  change (currentTimestamp w0) with (clock w0).
  change (mkDetachAuditEntry (clock w0) _ id _ _ _ _)
    with (detachEntry w0 id opts a issue).
  rewrite Hl. apply LogDetachAudit_frame in Hl.
  erewrite Update_fault; [|by rewrite Hl].
  eexists. split; [reflexivity|]. rewrite Hl. by simpl.
Qed.

(** C7. Attach on a record that is not pinned fails with an error whose
    message names the status the record has, and leaves the issue database
    as it was. Detach makes no such check: on that same record, with [bd]
    answering, [DetachMolecule] and [DetachMoleculeWithAudit] succeed and
    return the record, stripped of its overlay if it has one. *)
Theorem attach_requires_pinned
    (b : Beads) (id moleculeID : str) (opts : DetachOptions)
    (w w1 : World) (issue : Issue) :
  Show b id w = (Ok issue, w1) -> Status issue ≠ StatusPinned ->
  AttachMolecule b id moleculeID w =
    (Err (Errorf ("issue " ++ id ++ " is not pinned (status: "
                    ++ Status issue ++ ")")), w1) ∧
  bdIssues w1 = bdIssues w ∧
  (healthy w ->
   (∃ w', DetachMolecule b id w = (Ok (detached issue), w')) ∧
   (∃ w', DetachMoleculeWithAudit b id opts w = (Ok (detached issue), w'))).
Proof.
  intros Hs Hst. split; [|split].
  - unfold AttachMolecule. rewrite Hs. by rewrite bool_decide_eq_true_2.
  - by apply Show_inv in Hs as (_ & H1 & _).
  - intros Hh. pose proof Hs as Hs'.
    apply Show_inv in Hs' as (Hi & _ & _ & _ & _ & Hw). split.
    + eexists. by apply DetachMolecule_healthy.
    + destruct (ParseAttachmentFields (Some issue)) as [a|] eqn:Ha.
      * destruct (LogDetachAudit b (detachEntry w id opts a issue) w) as [r w2] eqn:Hl.
        eexists. by eapply DetachMoleculeWithAudit_attached.
      * exists w1. unfold detached. rewrite Ha.
        by apply DetachMoleculeWithAudit_unattached.
Qed.

(** The lines of a merged text that starts with a formatted block. *)
Lemma merged_lines (keys : gmap str bool) (fl : list str) (text : str) :
  Forall (fun l => matchesSchema keys l = true ∧ noLF l) fl -> fl ≠ [] ->
  isEmpty (assemble (Join fl [LF]) (collected keys text)) = false ∧
  ∃ rest,
    Split (assemble (Join fl [LF]) (collected keys text)) LF = fl ++ rest ∧
    Forall (fun l => matchesSchema keys l = false) rest.
Proof.
  intros Hfl Hne. rewrite assemble_trim, collected_core.
  destruct (core_facts keys text) as (Hlf & Hends & Hkeep).
  set (core := trimLeadingBlank (trimTrailingBlank (survivors keys text))) in *.
  destruct (assemble_lines (Join fl [LF]) core Hlf Hends) as [-> _].
  assert (Forall (fun l => LF ∉ l) fl) as Hfl_lf.
  { eapply Forall_impl; [|exact Hfl]. by intros l [_ Hl]. }
  destruct (Join fl [LF]) as [|c j] eqn:Ej.
  { by apply (Join_matching_nil keys) in Ej. }
  cbn [isEmpty]. rewrite <- Ej.
  destruct core as [|l core']; cbn [length Nat.eqb].
  - split; [by rewrite Ej|]. exists []. rewrite app_nil_r.
    split; [by apply Split_Join|constructor].
  - split; [by rewrite Ej|]. exists ([] :: l :: core'). split.
    + change (Join fl [LF] ++ [LF; LF] ++ Join (l :: core') [LF])
        with (Join fl [LF] ++ LF :: ([] ++ LF :: Join (l :: core') [LF])).
      by rewrite !Split_app_sep, !Split_Join.
    + constructor; [|done]. unfold matchesSchema.
      by rewrite lineKey_blank by constructor.
Qed.






End AttachDetach.

(** ** The event log *)

Section EventLog.

Variable Payload : Type.
Variable json_Marshal : events.Event Payload -> Result str.

(** C8. When no workspace root can be resolved for the calling process
    ([workspace.FindFromCwd] returns an error or the empty string), logging
    an event returns no error and leaves the environment, the file system
    with it, as it was: no file is written. *)
Theorem log_outside_workspace
    (eventType actor visibility : str) (payload : Payload) (env : events.Env) :
  is_Some (snd (events.findFromCwd env)) ∨ fst (events.findFromCwd env) = [] ->
  events.Log Payload json_Marshal eventType actor payload visibility env = (None, env) ∧
  (∀ event, events.write Payload json_Marshal event env = (None, env)).
Proof.
  intros H.
  assert (∀ event, events.write Payload json_Marshal event env = (None, env)) as Hw.
  { intros event. unfold events.write.
    destruct (events.findFromCwd env) as [townRoot err]. simpl in H.
    destruct H as [H | ->].
    - by rewrite (bool_decide_eq_true_2 _ H).
    - by rewrite orb_true_r. }
  split; [apply Hw|done].
Qed.

End EventLog.

(** ** Scenarios *)

Section Scenarios.

(** The scenarios of the specification, run on the embedding. *)

Example scenario_merge_request_fields :
  ParseMRFields (Some (handoff "branch: foo
target: main

Fixes bug" "open")) = Some (mkMRFields "foo" "main" "" "" "" "" "") ∧
  SetMRFields (Some (handoff "branch: foo
target: main

Fixes bug" "open")) None = "Fixes bug".
Proof. split; reflexivity. Qed.

Example scenario_attach_empty_description :
  fst (AttachMolecule townBeads "gt-1" "gt-42" (town readyFS (handoff "" "pinned"))) =
  Ok (handoff "attached_molecule: gt-42
attached_at: 2025-01-01T00:00:00Z" "pinned").
Proof. reflexivity. Qed.

Example scenario_case_insensitive :
  ParseMRFields (Some (handoff "Branch: x" "open")) =
    Some (mkMRFields "x" "" "" "" "" "" "") ∧
  ParseMRFields (Some (handoff "branch: x" "open")) =
    Some (mkMRFields "x" "" "" "" "" "" "") ∧
  ParseMRFields (Some (handoff "BRANCH: x" "open")) =
    Some (mkMRFields "x" "" "" "" "" "" "").
Proof. repeat split; reflexivity. Qed.

Example scenario_last_occurrence_wins :
  ParseAttachmentFields (Some (handoff "attached_molecule: gt-1
notes: keep: this
Attached-Molecule: gt-2" "pinned")) = Some (mkAttachmentFields "gt-2" "" "") ∧
  SetAttachmentFields (Some (handoff "attached_molecule: gt-1
notes: keep: this
Attached-Molecule: gt-2" "pinned")) None = "notes: keep: this".
Proof. split; reflexivity. Qed.

Lemma town_healthy (fs : FS) (issue : Issue) : healthy (town fs issue).
Proof. reflexivity. Qed.

Lemma town_lookup (fs : FS) (issue : Issue) :
  bdIssues (town fs issue) !! ("gt-1" : str) = Some issue.
Proof. apply lookup_singleton_eq. Qed.

Lemma readyFS_appendable : appendable (auditPath townBeads) readyFS.
Proof.
  unfold appendable, readyFS. cbn [dirs files readOnly diskFull].
  rewrite lookup_empty. repeat split; set_solver.
Qed.

Lemma bareFS_no_audit_directory :
  [workDir townBeads; ".beads"] ∉ dirs bareFS.
Proof. unfold bareFS. cbn [dirs workDir townBeads]. set_solver. Qed.

(** C4 as the specification words it fails: in a working directory without
    the [.beads] directory the append returns an error, and neither the
    directory nor the file exists afterwards. *)
Lemma audit_append_counterexample :
  LogDetachAudit townBeads sampleEntry (town bareFS (handoff "" "pinned")) =
    (Some (Wrap "opening audit log"
             (PathError "open" ["/town/rig"; ".beads"; "audit.log"] ENOENT)),
     town bareFS (handoff "" "pinned")) ∧
  Error (Wrap "opening audit log"
           (PathError "open" ["/town/rig"; ".beads"; "audit.log"] ENOENT)) =
    "opening audit log: open /town/rig/.beads/audit.log: no such file or directory".
Proof. split; reflexivity. Qed.

Lemma audit_append_witness :
  (appendable (auditPath townBeads) readyFS ∧
   ∃ data,
     json_Marshal sampleEntry = Ok data ∧ noLF data ∧
     LogDetachAudit townBeads sampleEntry (town readyFS (handoff "" "pinned")) =
       (None, setFsys (town readyFS (handoff "" "pinned"))
                (appended readyFS (auditPath townBeads) (data ++ [LF]))) ∧
     dirs (appended readyFS (auditPath townBeads) (data ++ [LF])) = dirs readyFS ∧
     files (appended readyFS (auditPath townBeads) (data ++ [LF])) =
       <[auditPath townBeads :=
           default [] (files readyFS !! auditPath townBeads) ++ data ++ [LF]]>
         (files readyFS)) ∧
  (([workDir townBeads; ".beads"] ∉ dirs bareFS) ∧
   ∃ e, LogDetachAudit townBeads sampleEntry (town bareFS (handoff "" "pinned")) =
        (Some e, town bareFS (handoff "" "pinned"))).
Proof.
  split; split.
  - exact readyFS_appendable.
  - apply (proj1 (audit_append townBeads sampleEntry (town readyFS (handoff "" "pinned")))).
    exact readyFS_appendable.
  - exact bareFS_no_audit_directory.
  - apply (proj2 (audit_append townBeads sampleEntry (town bareFS (handoff "" "pinned")))).
    exact bareFS_no_audit_directory.
Defined.




Lemma detach_survives_audit_failure_witness :
  (healthy (town bareFS (handoff "attached_molecule: gt-42

plain notes" "working")) ∧
   LogDetachAudit townBeads
     (detachEntry (town bareFS (handoff "attached_molecule: gt-42

plain notes" "working")) "gt-1" byToast (mkAttachmentFields "gt-42" "" "")
        (handoff "attached_molecule: gt-42

plain notes" "working"))
     (town bareFS (handoff "attached_molecule: gt-42

plain notes" "working")) =
     (Some (Wrap "opening audit log"
              (PathError "open" ["/town/rig"; ".beads"; "audit.log"] ENOENT)),
      town bareFS (handoff "attached_molecule: gt-42

plain notes" "working"))) ∧
  ∃ w',
    DetachMoleculeWithAudit townBeads "gt-1" byToast
      (town bareFS (handoff "attached_molecule: gt-42

plain notes" "working")) = (Ok (handoff "plain notes" "working"), w') ∧
    bdIssues w' !! ("gt-1" : str) = Some (handoff "plain notes" "working") ∧
    ParseAttachmentFields (Some (handoff "plain notes" "working")) = None ∧
    stderr w' =
      "Warning: failed to write audit log: opening audit log: open /town/rig/.beads/audit.log: no such file or directory
".
Proof.
  split.
  - split; reflexivity.
  - apply (detach_survives_audit_failure townBeads "gt-1" byToast
             (town bareFS (handoff "attached_molecule: gt-42

plain notes" "working"))
             (town bareFS (handoff "attached_molecule: gt-42

plain notes" "working"))
             (handoff "attached_molecule: gt-42

plain notes" "working")
             (mkAttachmentFields "gt-42" "" "")
             (Wrap "opening audit log"
                (PathError "open" ["/town/rig"; ".beads"; "audit.log"] ENOENT)));
      reflexivity.
Defined.

Lemma attach_requires_pinned_witness :
  (Show townBeads "gt-1" (town readyFS (handoff "attached_molecule: gt-42" "open")) =
     (Ok (handoff "attached_molecule: gt-42" "open"),
      town readyFS (handoff "attached_molecule: gt-42" "open")) ∧
   Status (handoff "attached_molecule: gt-42" "open") ≠ StatusPinned) ∧
  AttachMolecule townBeads "gt-1" "gt-7"
    (town readyFS (handoff "attached_molecule: gt-42" "open")) =
    (Err (Errorf "issue gt-1 is not pinned (status: open)"),
     town readyFS (handoff "attached_molecule: gt-42" "open")) ∧
  (∃ w', DetachMolecule townBeads "gt-1"
           (town readyFS (handoff "attached_molecule: gt-42" "open")) =
         (Ok (handoff "" "open"), w')).
Proof.
  assert (Status (handoff "attached_molecule: gt-42" "open") ≠ StatusPinned) as Hst.
  { intros H. cbv in H. discriminate H. }
  split; [split; [reflexivity|exact Hst]|].
  destruct (attach_requires_pinned townBeads "gt-1" "gt-7" byToast
              (town readyFS (handoff "attached_molecule: gt-42" "open"))
              (town readyFS (handoff "attached_molecule: gt-42" "open"))
              (handoff "attached_molecule: gt-42" "open") eq_refl Hst)
    as (Ha & _ & Hd).
  split; [exact Ha|]. exact (proj1 (Hd (town_healthy _ _))).
Defined.

Lemma log_outside_workspace_witness :
  (is_Some (snd (events.findFromCwd
                   (events.mkEnv ("", Some (Errorf "not in a Gas Town workspace"))
                                 bareFS "2025-01-01T00:00:00Z"))) ∨
   fst (events.findFromCwd
          (events.mkEnv ("", Some (Errorf "not in a Gas Town workspace"))
                        bareFS "2025-01-01T00:00:00Z")) = []) ∧
  events.Log unit (fun _ => Ok "{}") "sling" "gastown/Toast" tt events.VisibilityFeed
    (events.mkEnv ("", Some (Errorf "not in a Gas Town workspace"))
                  bareFS "2025-01-01T00:00:00Z") =
    (None, events.mkEnv ("", Some (Errorf "not in a Gas Town workspace"))
                        bareFS "2025-01-01T00:00:00Z").
Proof.
  split.
  - right. reflexivity.
  - exact (proj1 (log_outside_workspace unit (fun _ => Ok "{}")
                    "sling" "gastown/Toast" events.VisibilityFeed tt
                    (events.mkEnv ("", Some (Errorf "not in a Gas Town workspace"))
                                  bareFS "2025-01-01T00:00:00Z")
                    (or_intror eq_refl))).
Defined.

Lemma empty_value_asymmetry_witness :
  (Forall (fun l => emptyValueLine attachmentKeys l ∧ noLF l)
          ["attached_molecule:"; "  Attached-At :  "] ∧
   Description (handoff "attached_molecule:
  Attached-At :  " "pinned") =
     Join ["attached_molecule:"; "  Attached-At :  "] [LF]) ∧
  ParseAttachmentFields (Some (handoff "attached_molecule:
  Attached-At :  " "pinned")) = None ∧
  SetAttachmentFields (Some (handoff "attached_molecule:
  Attached-At :  " "pinned")) None = "".
Proof.
  assert (Forall (fun l => emptyValueLine attachmentKeys l ∧ noLF l)
                 ["attached_molecule:"; "  Attached-At :  "]) as Hlines.
  { repeat constructor.
    - exists "", "attached_molecule", "", "".
      repeat split; try reflexivity; repeat constructor.
    - apply noLF_decide. reflexivity.
    - exists "  ", "Attached-At", " ", "  ".
      repeat split; try reflexivity; repeat constructor.
    - apply noLF_decide. reflexivity. }
  split; [split; [exact Hlines|reflexivity]|].
  destruct (empty_value_asymmetry (handoff "attached_molecule:
  Attached-At :  " "pinned") ["attached_molecule:"; "  Attached-At :  "] None
              Hlines eq_refl) as (_ & Hp & Hs).
  split; [exact Hp|exact Hs].
Defined.

End Scenarios.

(** ** More on the codec: what parse sees of a merged text *)

Section ParseMerged.

(** The parsers read a description as its lines, the empty one included. *)
Lemma ParseAttachmentFields_lines (issue : Issue) :
  ParseAttachmentFields (Some issue) =
  parsedFrom parseAttachmentLine zeroAttachmentFields (Split (Description issue) LF).
Proof.
  unfold ParseAttachmentFields, parsedFrom.
  by destruct (Description issue).
Qed.

Lemma ParseMRFields_lines (issue : Issue) :
  ParseMRFields (Some issue) =
  parsedFrom parseMRLine zeroMRFields (Split (Description issue) LF).
Proof.
  unfold ParseMRFields, parsedFrom.
  by destruct (Description issue).
Qed.

Lemma survivor_passedOver_attachment (l : str) :
  matchesSchema attachmentKeys l = false -> passedOver parseAttachmentLine l.
Proof. intros H st. by apply parseAttachmentLine_survivor. Qed.

Lemma survivor_passedOver_mr (l : str) :
  matchesSchema mrKeys l = false -> passedOver parseMRLine l.
Proof. intros H st. by apply parseMRLine_survivor. Qed.

(** A loop whose body passes over the lines outside a schema sees only the
    lines of the schema. *)
Lemma fold_left_schema_lines {S : Type} (step : S -> str -> S)
    (keys : gmap str bool) (ls : list str) (st : S) :
  (∀ l, matchesSchema keys l = false -> passedOver step l) ->
  fold_left step ls st = fold_left step (List.filter (matchesSchema keys) ls) st.
Proof.
  intros Hpass. revert st. induction ls as [|l ls IH]; intros st; [done|].
  simpl. destruct (matchesSchema keys l) eqn:E; simpl.
  - apply IH.
  - rewrite (Hpass l E st). apply IH.
Qed.

Lemma filter_schema_blank (keys : gmap str bool) (ls : list str) :
  Forall allSpace ls -> List.filter (matchesSchema keys) ls = [].
Proof.
  induction 1 as [|l ls Hl _ IH]; [done|]. simpl.
  unfold matchesSchema at 1. by rewrite lineKey_blank.
Qed.

Lemma filter_schema_none (keys : gmap str bool) (ls : list str) :
  Forall (fun l => matchesSchema keys l = false) ls ->
  List.filter (matchesSchema keys) ls = [].
Proof. induction 1 as [|l ls Hl _ IH]; [done|]. simpl. by rewrite Hl. Qed.

Lemma filter_filter_implied {A : Type} (P Q : A -> bool) (ls : list A) :
  (∀ x, P x = true -> Q x = true) ->
  List.filter P (List.filter Q ls) = List.filter P ls.
Proof.
  intros H. induction ls as [|x ls IH]; [done|]. simpl.
  destruct (Q x) eqn:EQ; simpl.
  - by rewrite IH.
  - destruct (P x) eqn:EP; [|done]. apply H in EP. congruence.
Qed.

(** The lines of the schema [keysP] in a text merged under [keysM], when
    the formatted lines are outside [keysP] and the two schemas share no
    alias: they are those of the text that was merged. *)
Lemma merged_schema_lines (keysP keysM : gmap str bool) (fl : list str) (text : str) :
  (∀ k, mapIndex keysP k = true -> mapIndex keysM k = false) ->
  Forall (fun l => matchesSchema keysP l = false ∧ noLF l) fl ->
  List.filter (matchesSchema keysP)
    (Split (assemble (Join fl [LF]) (collected keysM text)) LF) =
  List.filter (matchesSchema keysP) (Split text LF).
Proof.
  intros Hdisj Hfl.
  destruct (merge_preserves keysM text (Join fl [LF]))
    as (header & lead & core & trail & Hs & Hlead & Htrail & _ & Hsplit & Hheader).
  rewrite Hsplit, List.filter_app.
  assert (Forall (fun l => matchesSchema keysP l = false) (Split (Join fl [LF]) LF))
    as Hfmt.
  { destruct fl as [|l0 fl0].
    - constructor; [|constructor]. unfold matchesSchema.
      by rewrite lineKey_blank by constructor.
    - rewrite Split_Join; [|done|].
      + eapply Forall_impl; [|exact Hfl]. by intros l [Hl _].
      + eapply Forall_impl; [|exact Hfl]. by intros l [_ Hl]. }
  assert (List.filter (matchesSchema keysP) header = []) as ->.
  { destruct Hheader as [-> | [-> | ->]]; [done|by apply filter_schema_none|].
    by rewrite List.filter_app, filter_schema_none by done. }
  rewrite app_nil_l.
  transitivity (List.filter (matchesSchema keysP) (survivors keysM text)).
  - rewrite Hs, !List.filter_app.
    by rewrite (filter_schema_blank _ lead), (filter_schema_blank _ trail), app_nil_r.
  - unfold survivors. apply filter_filter_implied.
    intros l Hl. unfold matchesSchema in *.
    destruct (lineKey l) as [k|]; [|done]. by rewrite (Hdisj k Hl).
Qed.

(** The formatted lines of a schema in a text merged under that schema,
    followed by nothing else of the schema. *)
Lemma merged_own_lines (keys : gmap str bool) (fl : list str) (text : str) :
  Forall (fun l => matchesSchema keys l = true ∧ noLF l) fl ->
  List.filter (matchesSchema keys)
    (Split (assemble (Join fl [LF]) (collected keys text)) LF) = fl.
Proof.
  intros Hfl.
  assert (List.filter (matchesSchema keys) fl = fl) as Hall.
  { clear text. induction Hfl as [|l ls [Hl _] _ IH]; [done|].
    simpl. by rewrite Hl, IH. }
  destruct fl as [|l0 fl0].
  - destruct (core_facts keys text) as (Hlf & Hends & Hkeep).
    rewrite assemble_trim, collected_core.
    destruct (assemble_lines (Join [] [LF])
                (trimLeadingBlank (trimTrailingBlank (survivors keys text)))
                Hlf Hends) as [_ (header & -> & Hh)].
    rewrite List.filter_app, (filter_schema_none _ _ Hkeep), app_nil_r.
    by destruct Hh as [-> | [-> | ->]].
  - destruct (merged_lines keys (l0 :: fl0) text Hfl) as (_ & rest & -> & Hrest);
      [done|].
    by rewrite List.filter_app, Hall, (filter_schema_none _ _ Hrest), app_nil_r.
Qed.

End ParseMerged.

(** ** More on the codec: properties of parse and merge together *)

Section CodecTogether.

Lemma label_line_outside (keys : gmap str bool) (k v : str) :
  properKey k -> mapIndex keys (ToLower k) = false ->
  matchesSchema keys ((k ++ ": ") ++ v) = false.
Proof.
  intros Hk Hm. rewrite label_line. unfold matchesSchema.
  rewrite lineKey_anatomy; [done|constructor|done|constructor].
Qed.

Lemma appendField_outside (keys : gmap str bool) (k v : str) :
  properKey k -> mapIndex keys (ToLower k) = false -> noLF k -> noLF v ->
  Forall (fun l => matchesSchema keys l = false ∧ noLF l)
         (appendField [] (k ++ ": ") v).
Proof.
  intros Hk Hm Hkl Hv. unfold appendField.
  destruct (isEmpty v); [constructor|]. rewrite app_nil_l.
  constructor; [|constructor]. split.
  - by apply label_line_outside.
  - by apply cleanValue_nonempty_line.
Qed.

Ltac solve_outside :=
  match goal with
  | |- Forall _ (appendField [] ?label ?v) =>
      let k := eval vm_compute in (take (length label - 2) label) in
      change label with (k ++ ": ");
      apply appendField_outside;
      [ apply properKey_decide; by vm_compute
      | by vm_compute
      | apply noLF_decide; by vm_compute
      | done ]
  end.

Lemma attachmentLines_outside_mr (f : AttachmentFields) :
  oneLineValues (Some f) ->
  Forall (fun l => matchesSchema mrKeys l = false ∧ noLF l) (attachmentLines f).
Proof.
  intros (H1 & H2 & H3). rewrite attachmentLines_app.
  repeat (apply Forall_app; split); solve_outside.
Qed.

Lemma mrLines_outside_attachment (f : MRFields) :
  oneLineMR (Some f) ->
  Forall (fun l => matchesSchema attachmentKeys l = false ∧ noLF l) (mrLines f).
Proof.
  intros (H1 & H2 & H3 & H4 & H5 & H6 & H7). rewrite mrLines_app.
  repeat (apply Forall_app; split); solve_outside.
Qed.

Lemma mrLines_match_oneLine (f : MRFields) :
  oneLineMR (Some f) ->
  Forall (fun l => matchesSchema mrKeys l = true ∧ noLF l) (mrLines f).
Proof. intros (H1 & H2 & H3 & H4 & H5 & H6 & H7). by apply mrLines_match. Qed.

(** The two schemas share no alias. *)
Lemma attachment_alias_not_mr (k : str) :
  mapIndex attachmentKeys k = true -> mapIndex mrKeys k = false.
Proof.
  intros Hk. apply mapIndex_list_to_map in Hk.
  repeat (apply elem_of_cons in Hk as [Hk|Hk];
          [apply (f_equal fst) in Hk; simpl in Hk; subst k; by vm_compute|]).
  by apply not_elem_of_nil in Hk.
Qed.

Lemma mr_alias_not_attachment (k : str) :
  mapIndex mrKeys k = true -> mapIndex attachmentKeys k = false.
Proof.
  intros Hk. apply mapIndex_list_to_map in Hk.
  repeat (apply elem_of_cons in Hk as [Hk|Hk];
          [apply (f_equal fst) in Hk; simpl in Hk; subst k; by vm_compute|]).
  by apply not_elem_of_nil in Hk.
Qed.

Lemma FormatAttachmentFields_lines (fields : option AttachmentFields) :
  FormatAttachmentFields fields = Join (formattedAttachment fields) [LF].
Proof. by destruct fields. Qed.

Lemma FormatMRFields_lines (fields : option MRFields) :
  FormatMRFields fields = Join (formattedMR fields) [LF].
Proof. by destruct fields. Qed.

Lemma formattedAttachment_match (fields : option AttachmentFields) :
  oneLineValues fields ->
  Forall (fun l => matchesSchema attachmentKeys l = true ∧ noLF l)
         (formattedAttachment fields).
Proof. destruct fields; [apply attachmentLines_match|constructor]. Qed.

Lemma formattedMR_match (fields : option MRFields) :
  oneLineMR fields ->
  Forall (fun l => matchesSchema mrKeys l = true ∧ noLF l) (formattedMR fields).
Proof. destruct fields; [apply mrLines_match_oneLine|constructor]. Qed.

(** The lines of a schema in the text that [Join] makes of its formatted
    lines: those lines. *)
Lemma formatted_own_lines (keys : gmap str bool) (fl : list str) :
  Forall (fun l => matchesSchema keys l = true ∧ noLF l) fl ->
  List.filter (matchesSchema keys) (Split (Join fl [LF]) LF) = fl.
Proof.
  intros Hfl. destruct fl as [|l0 fl0]; [done|].
  rewrite Split_Join; [|done|].
  - induction Hfl as [|l ls [Hl _] _ IH]; [done|]. simpl. by rewrite Hl, IH.
  - eapply Forall_impl; [|exact Hfl]. by intros l [_ Hl].
Qed.

End CodecTogether.

Section CodecProperties.

Lemma parse_of_merged_attachment (issue : Issue) (fields : option AttachmentFields) :
  oneLineValues fields ->
  ParseAttachmentFields
    (Some (withDescription issue (SetAttachmentFields (Some issue) fields))) =
  ParseAttachmentFields
    (Some (withDescription issue (FormatAttachmentFields fields))).
Proof.
  intros Hv. rewrite !ParseAttachmentFields_lines.
  cbn [Description withDescription]. unfold parsedFrom.
  rewrite SetAttachmentFields_assemble, FormatAttachmentFields_lines.
  rewrite (fold_left_schema_lines _ attachmentKeys (Split (assemble _ _) LF))
    by apply survivor_passedOver_attachment.
  rewrite (fold_left_schema_lines _ attachmentKeys (Split (Join _ _) LF))
    by apply survivor_passedOver_attachment.
  by rewrite merged_own_lines, formatted_own_lines
    by (by apply formattedAttachment_match).
Qed.

Lemma parse_of_merged_mr (issue : Issue) (fields : option MRFields) :
  oneLineMR fields ->
  ParseMRFields (Some (withDescription issue (SetMRFields (Some issue) fields))) =
  ParseMRFields (Some (withDescription issue (FormatMRFields fields))).
Proof.
  intros Hv. rewrite !ParseMRFields_lines.
  cbn [Description withDescription]. unfold parsedFrom.
  rewrite SetMRFields_assemble, FormatMRFields_lines.
  rewrite (fold_left_schema_lines _ mrKeys (Split (assemble _ _) LF))
    by apply survivor_passedOver_mr.
  rewrite (fold_left_schema_lines _ mrKeys (Split (Join _ _) LF))
    by apply survivor_passedOver_mr.
  by rewrite merged_own_lines, formatted_own_lines
    by (by apply formattedMR_match).
Qed.

(** X1. Nothing of the other content leaks into the fields: for every
    description and every field set whose values hold no line feed, parsing
    the merged description yields what parsing the formatted block alone
    yields; under either schema. *)
Theorem parse_of_merged
    (issue : Issue) (af : option AttachmentFields) (mf : option MRFields) :
  (oneLineValues af ->
   ParseAttachmentFields
     (Some (withDescription issue (SetAttachmentFields (Some issue) af))) =
   ParseAttachmentFields
     (Some (withDescription issue (FormatAttachmentFields af)))) ∧
  (oneLineMR mf ->
   ParseMRFields (Some (withDescription issue (SetMRFields (Some issue) mf))) =
   ParseMRFields (Some (withDescription issue (FormatMRFields mf)))).
Proof.
  split; [apply parse_of_merged_attachment | apply parse_of_merged_mr].
Qed.



(** Merging a merged text again, with other formatted lines: as if the
    first merge had not been. *)
Lemma remerge_overwrite (keys : gmap str bool) (fl1 fl2 : list str) (text : str) :
  Forall (fun l => matchesSchema keys l = true ∧ noLF l) fl1 ->
  assemble (Join fl2 [LF])
    (collected keys (assemble (Join fl1 [LF]) (collected keys text))) =
  assemble (Join fl2 [LF]) (collected keys text).
Proof.
  intros Hfl.
  rewrite (assemble_trim _ (collected keys (assemble _ _))).
  rewrite collected_core, remerge_core by done.
  by rewrite <- collected_core, <- assemble_trim.
Qed.

(** X3. The last merge wins: for field sets [f1] (its values without line
    feed) and [f2], merging [f2] into the description that merging [f1]
    produced gives what merging [f2] into the first description gives. With
    [f2 = nil]: setting fields and clearing them leaves what clearing alone
    leaves. Under either schema. *)
Theorem merge_overwrites
    (issue merged mergedMR : Issue)
    (af1 af2 : option AttachmentFields) (mf1 mf2 : option MRFields) :
  (oneLineValues af1 ->
   Description merged = SetAttachmentFields (Some issue) af1 ->
   SetAttachmentFields (Some merged) af2 = SetAttachmentFields (Some issue) af2) ∧
  (oneLineMR mf1 ->
   Description mergedMR = SetMRFields (Some issue) mf1 ->
   SetMRFields (Some mergedMR) mf2 = SetMRFields (Some issue) mf2).
Proof.
  split.
  - intros Hv Hd. rewrite !SetAttachmentFields_assemble, Hd.
    rewrite SetAttachmentFields_assemble, !FormatAttachmentFields_lines.
    by apply remerge_overwrite, formattedAttachment_match.
  - intros Hv Hd. rewrite !SetMRFields_assemble, Hd.
    rewrite SetMRFields_assemble, !FormatMRFields_lines.
    by apply remerge_overwrite, formattedMR_match.
Qed.

(** X4. The two overlays do not interfere: writing merge-request fields
    into a description (their values without line feed) leaves what
    [ParseAttachmentFields] reads of it unchanged, and writing attachment
    fields leaves what [ParseMRFields] reads unchanged. *)
Theorem schemas_do_not_interfere
    (issue : Issue) (af : option AttachmentFields) (mf : option MRFields) :
  (oneLineMR mf ->
   ParseAttachmentFields
     (Some (withDescription issue (SetMRFields (Some issue) mf))) =
   ParseAttachmentFields (Some issue)) ∧
  (oneLineValues af ->
   ParseMRFields
     (Some (withDescription issue (SetAttachmentFields (Some issue) af))) =
   ParseMRFields (Some issue)).
Proof.
  split.
  - intros Hv. rewrite !ParseAttachmentFields_lines.
    cbn [Description withDescription]. unfold parsedFrom.
    rewrite SetMRFields_assemble, FormatMRFields_lines.
    rewrite (fold_left_schema_lines _ attachmentKeys (Split (assemble _ _) LF))
      by apply survivor_passedOver_attachment.
    rewrite (fold_left_schema_lines _ attachmentKeys (Split (Description issue) LF))
      by apply survivor_passedOver_attachment.
    rewrite merged_schema_lines; [done|apply attachment_alias_not_mr|].
    destruct mf as [f|]; [by apply mrLines_outside_attachment|constructor].
  - intros Hv. rewrite !ParseMRFields_lines.
    cbn [Description withDescription]. unfold parsedFrom.
    rewrite SetAttachmentFields_assemble, FormatAttachmentFields_lines.
    rewrite (fold_left_schema_lines _ mrKeys (Split (assemble _ _) LF))
      by apply survivor_passedOver_mr.
    rewrite (fold_left_schema_lines _ mrKeys (Split (Description issue) LF))
      by apply survivor_passedOver_mr.
    rewrite merged_schema_lines; [done|apply mr_alias_not_attachment|].
    destruct af as [f|]; [by apply attachmentLines_outside_mr|constructor].
Qed.

(** X5. What [ParseAttachmentFields] returns is never the empty field set,
    and every value in it is free of line feeds and of white space at its
    ends. *)
Theorem parse_returns_clean_fields (issue : Issue) (f : AttachmentFields) :
  ParseAttachmentFields (Some issue) = Some f ->
  cleanAttachment f ∧ f ≠ zeroAttachmentFields.
Proof. apply parsed_fields_clean. Qed.

End CodecProperties.

Section ParseLines.






End ParseLines.

(** ** More on attach and detach *)

Section AttachDetachMore.

Lemma GetAttachment_healthy (b : Beads) (id : str) (w : World) (issue : Issue) :
  healthy w -> bdIssues w !! id = Some issue ->
  GetAttachment b id w = (Ok (ParseAttachmentFields (Some issue)), w).
Proof.
  intros Hh Hi. unfold GetAttachment. by rewrite (Show_healthy b id w issue Hh Hi).
Qed.

Lemma withIssues_healthy (w : World) (db : gmap str Issue) :
  healthy w -> healthy (withIssues w db).
Proof. done. Qed.


(** X9. Read after detach: with [bd] answering, whatever becomes of the
    audit entry, [GetAttachment] after [DetachMoleculeWithAudit], and after
    [DetachMolecule], finds no attachment. *)
Theorem detach_then_get
    (b : Beads) (id : str) (opts : DetachOptions) (w : World) (issue : Issue) :
  healthy w -> bdIssues w !! id = Some issue ->
  (∃ updated w1,
     DetachMoleculeWithAudit b id opts w = (Ok updated, w1) ∧
     GetAttachment b id w1 = (Ok None, w1)) ∧
  (∃ updated w1,
     DetachMolecule b id w = (Ok updated, w1) ∧
     GetAttachment b id w1 = (Ok None, w1)).
Proof.
  intros Hh Hi. split.
  - destruct (ParseAttachmentFields (Some issue)) as [a|] eqn:Ha.
    + destruct (LogDetachAudit b (detachEntry w id opts a issue) w) as [r w2] eqn:Hl.
      eexists _, _. split; [by eapply DetachMoleculeWithAudit_attached|].
      rewrite (GetAttachment_healthy b id _ (detached issue));
        [|done|apply lookup_insert_eq].
      by rewrite detached_parses_to_none.
    + exists issue, w. split.
      * apply DetachMoleculeWithAudit_unattached; [by apply Show_healthy|done].
      * by rewrite (GetAttachment_healthy b id w issue), Ha.
  - eexists _, _. split; [by apply DetachMolecule_healthy|].
    destruct (ParseAttachmentFields (Some issue)) as [a|] eqn:Ha.
    + rewrite (GetAttachment_healthy b id _ (detached issue));
        [|done|apply lookup_insert_eq].
      by rewrite detached_parses_to_none.
    + rewrite (GetAttachment_healthy b id w issue) by done.
      unfold detached. by rewrite Ha.
Qed.

(** X10. A record that [bd] does not know: with [bd] answering, attach and
    both detaches fail with the not-found error under the context
    ["fetching pinned bead"], [GetAttachment] fails with the bare not-found
    error, and none of them changes the world. *)
Theorem missing_record
    (b : Beads) (id moleculeID : str) (opts : DetachOptions) (w : World) :
  healthy w -> bdIssues w !! id = None ->
  AttachMolecule b id moleculeID w =
    (Err (Wrap "fetching pinned bead" ErrNotFound), w) ∧
  DetachMolecule b id w = (Err (Wrap "fetching pinned bead" ErrNotFound), w) ∧
  DetachMoleculeWithAudit b id opts w =
    (Err (Wrap "fetching pinned bead" ErrNotFound), w) ∧
  GetAttachment b id w = (Err ErrNotFound, w) ∧
  Error (Wrap "fetching pinned bead" ErrNotFound) =
    "fetching pinned bead: issue not found".
Proof.
  intros Hh Hi.
  assert (Show b id w = (Err ErrNotFound, w)) as Hs.
  { unfold healthy in Hh. unfold Show, run.
    destruct w as [db faults fs err now]; simpl in *. by rewrite Hh, Hi. }
  unfold AttachMolecule, DetachMolecule, DetachMoleculeWithAudit, GetAttachment.
  by rewrite Hs.
Qed.

(** X11. What attach and detach leave alone: with [bd] answering, after
    [AttachMolecule] on a pinned record and after [DetachMoleculeWithAudit]
    on any record, every other record of the database is as it was, and
    the record itself has kept its identifier, title, status, priority and
    assignee. *)
Theorem attach_detach_frame
    (b : Beads) (id moleculeID : str) (opts : DetachOptions)
    (w : World) (issue : Issue) :
  healthy w -> bdIssues w !! id = Some issue ->
  (Status issue = StatusPinned ->
   ∃ updated w1,
     AttachMolecule b id moleculeID w = (Ok updated, w1) ∧
     (∀ other, other ≠ id -> bdIssues w1 !! other = bdIssues w !! other) ∧
     bdIssues w1 !! id = Some updated ∧
     (ID updated, Title updated, Status updated, Priority updated, Assignee updated) =
     (ID issue, Title issue, Status issue, Priority issue, Assignee issue)) ∧
  (∃ updated w1,
     DetachMoleculeWithAudit b id opts w = (Ok updated, w1) ∧
     (∀ other, other ≠ id -> bdIssues w1 !! other = bdIssues w !! other) ∧
     bdIssues w1 !! id = Some updated ∧
     (ID updated, Title updated, Status updated, Priority updated, Assignee updated) =
     (ID issue, Title issue, Status issue, Priority issue, Assignee issue)).
Proof.
  intros Hh Hi. split.
  - intros Hs. eexists _, _. split; [by apply AttachMolecule_healthy|].
    split; [|split; [apply lookup_insert_eq|done]].
    intros other Hne. by apply lookup_insert_ne.
  - destruct (ParseAttachmentFields (Some issue)) as [a|] eqn:Ha.
    + destruct (LogDetachAudit b (detachEntry w id opts a issue) w) as [r w2] eqn:Hl.
      eexists _, _. split; [by eapply DetachMoleculeWithAudit_attached|].
      split; [|split; [apply lookup_insert_eq|]].
      * intros other Hne. by apply lookup_insert_ne.
      * unfold detached. by rewrite Ha.
    + exists issue, w. split; [|done].
      apply DetachMoleculeWithAudit_unattached; [by apply Show_healthy|done].
Qed.


(** X13. The two detaches agree: with [bd] answering, whatever becomes of
    the audit entry, [DetachMoleculeWithAudit] returns the record that
    [DetachMolecule] returns and leaves the same issue database. *)
Theorem detach_variants_agree
    (b : Beads) (id : str) (opts : DetachOptions) (w : World) (issue : Issue) :
  healthy w -> bdIssues w !! id = Some issue ->
  fst (DetachMoleculeWithAudit b id opts w) = fst (DetachMolecule b id w) ∧
  bdIssues (snd (DetachMoleculeWithAudit b id opts w)) =
  bdIssues (snd (DetachMolecule b id w)).
Proof.
  intros Hh Hi. rewrite (DetachMolecule_healthy b id w issue Hh Hi).
  destruct (ParseAttachmentFields (Some issue)) as [a|] eqn:Ha.
  - destruct (LogDetachAudit b (detachEntry w id opts a issue) w) as [r w2] eqn:Hl.
    by rewrite (DetachMoleculeWithAudit_attached b id opts w w2 issue a r).
  - rewrite (DetachMoleculeWithAudit_unattached b id opts w w issue);
      [|by apply Show_healthy|done].
    unfold detached. by rewrite Ha.
Qed.

End AttachDetachMore.

(** ** Failures of [bd] *)

Section Failures.

Lemma Show_fault (b : Beads) (id : str) (w : World) (e : error)
    (rest : list (option error)) :
  bdFaults w = Some e :: rest ->
  Show b id w = (Err e, mkWorld (bdIssues w) rest (fsys w) (stderr w) (clock w)).
Proof.
  unfold Show, run. destruct w as [db faults fs err now]; simpl. by intros ->.
Qed.

Lemma Show_through (b : Beads) (id : str) (w : World) (issue : Issue)
    (rest : list (option error)) :
  bdFaults w = None :: rest -> bdIssues w !! id = Some issue ->
  Show b id w =
  (Ok issue, mkWorld (bdIssues w) rest (fsys w) (stderr w) (clock w)).
Proof.
  unfold Show, run. destruct w as [db faults fs err now]; simpl. by intros -> ->.
Qed.

(** X14. When the run of [bd] that fetches the record fails, attach and
    both detaches return that error under the context
    ["fetching pinned bead"], [GetAttachment] returns it bare, and the issue
    database, the file system and standard error are as they were: no audit
    entry is written. *)
Theorem fetch_failure_reported
    (b : Beads) (id moleculeID : str) (opts : DetachOptions) (w : World)
    (e : error) (rest : list (option error)) :
  bdFaults w = Some e :: rest ->
  let w' := mkWorld (bdIssues w) rest (fsys w) (stderr w) (clock w) in
  AttachMolecule b id moleculeID w = (Err (Wrap "fetching pinned bead" e), w') ∧
  DetachMolecule b id w = (Err (Wrap "fetching pinned bead" e), w') ∧
  DetachMoleculeWithAudit b id opts w =
    (Err (Wrap "fetching pinned bead" e), w') ∧
  GetAttachment b id w = (Err e, w').
Proof.
  intros Hf w'.
  unfold AttachMolecule, DetachMolecule, DetachMoleculeWithAudit, GetAttachment.
  by rewrite (Show_fault b id w e rest Hf).
Qed.

(** X15. When [bd] fetches the record and then fails on the update, attach
    (on a pinned record) and detach (on a record with an attachment) return
    that error under the context ["updating pinned bead"], and the issue
    database is as it was. *)
Theorem update_failure_reported
    (b : Beads) (id moleculeID : str) (w : World) (issue : Issue)
    (e : error) (rest : list (option error)) :
  bdFaults w = None :: Some e :: rest -> bdIssues w !! id = Some issue ->
  let w' := mkWorld (bdIssues w) rest (fsys w) (stderr w) (clock w) in
  (Status issue = StatusPinned ->
   AttachMolecule b id moleculeID w =
     (Err (Wrap "updating pinned bead" e), w')) ∧
  (ParseAttachmentFields (Some issue) ≠ None ->
   DetachMolecule b id w = (Err (Wrap "updating pinned bead" e), w')).
Proof.
  intros Hf Hi w'. split.
  - intros Hs. unfold AttachMolecule.
    rewrite (Show_through b id w issue _ Hf Hi).
    rewrite bool_decide_eq_false_2 by (by intros H; apply H).
    by erewrite Update_fault.
  - intros Hp. unfold DetachMolecule.
    rewrite (Show_through b id w issue _ Hf Hi).
    destruct (ParseAttachmentFields (Some issue)); [|done].
    by erewrite Update_fault.
Qed.

(** X16. The audit entry is written before the update is tried: when the
    audit log can be appended to and [bd] fetches the record, which carries
    an attachment, and then fails on the update,
    [DetachMoleculeWithAudit] returns the update's error, the record is
    still attached in the database, and the audit log has gained the line
    of the detach that did not happen. *)
Theorem audit_precedes_update
    (b : Beads) (id : str) (opts : DetachOptions) (w : World)
    (issue : Issue) (a : AttachmentFields) (e : error)
    (rest : list (option error)) :
  bdFaults w = None :: Some e :: rest -> bdIssues w !! id = Some issue ->
  ParseAttachmentFields (Some issue) = Some a ->
  appendable (auditPath b) (fsys w) ->
  ∃ data,
    json_Marshal (detachEntry w id opts a issue) = Ok data ∧
    DetachMoleculeWithAudit b id opts w =
      (Err (Wrap "updating pinned bead" e),
       mkWorld (bdIssues w) rest
               (appended (fsys w) (auditPath b) (data ++ [LF]))
               (stderr w) (clock w)) ∧
    bdIssues w !! id = Some issue.
Proof.
  intros Hf Hi Ha Happ.
  set (w0 := mkWorld (bdIssues w) (Some e :: rest) (fsys w) (stderr w) (clock w)).
  destruct (LogDetachAudit_appendable b (detachEntry w0 id opts a issue) w0 Happ)
    as (data & Hm & _ & Hlog).
  exists data. split; [exact Hm|]. split; [|done].
  unfold DetachMoleculeWithAudit.
  rewrite (Show_through b id w issue _ Hf Hi), Ha. fold w0.
  change (currentTimestamp w0) with (clock w0).
  change (mkDetachAuditEntry (clock w0) _ id _ _ _ _)
    with (detachEntry w0 id opts a issue).
  rewrite Hlog. by erewrite Update_fault.
Qed.

End Failures.

(** ** The two logs are append-only *)

Section AppendOnly.

Lemma appendOnly_refl (fs : FS) (p : path) : appendOnly fs fs p.
Proof.
  split; [done|]. split; [done|]. intros old H. exists []. by rewrite app_nil_r.
Qed.

Lemma OpenFile_appendOnly (p : path) (fs fs' : FS) (r : Result path) :
  OpenFile p fs = (r, fs') ->
  appendOnly fs fs' p ∧ match r with Ok f => f = p | Err _ => fs' = fs end.
Proof.
  unfold OpenFile.
  destruct (bool_decide (p ∈ dirs fs));
    [intros [= <- <-]; split; [apply appendOnly_refl|done]|].
  destruct (negb (bool_decide (parent p ∈ dirs fs)));
    [intros [= <- <-]; split; [apply appendOnly_refl|done]|].
  destruct (files fs !! p) as [old|] eqn:E.
  - destruct (bool_decide (p ∈ readOnly fs)); intros [= <- <-];
      (split; [apply appendOnly_refl|done]).
  - destruct (bool_decide (parent p ∈ readOnly fs)); intros [= <- <-];
      (split; [|done]); [apply appendOnly_refl|].
    split; [done|]. split.
    + intros q Hq. simpl. by apply lookup_insert_ne.
    + intros old Hold. discriminate (eq_trans (eq_sym E) Hold).
Qed.

Lemma Write_appendOnly (p : path) (data : str) (fs fs' : FS) (r : option error) :
  Write p data fs = (r, fs') -> appendOnly fs fs' p.
Proof.
  unfold Write. destruct (diskFull fs); intros [= <- <-];
    [apply appendOnly_refl|].
  split; [done|]. split.
  - intros q Hq. simpl. by apply lookup_insert_ne.
  - intros old Hold. exists data. simpl.
    setoid_rewrite lookup_insert_eq. by rewrite Hold.
Qed.

Lemma appendOnly_trans (fs1 fs2 fs3 : FS) (p : path) :
  appendOnly fs1 fs2 p -> appendOnly fs2 fs3 p -> appendOnly fs1 fs3 p.
Proof.
  intros (Hd1 & Ho1 & Hp1) (Hd2 & Ho2 & Hp2). split; [congruence|]. split.
  - intros q Hq. rewrite Ho2, Ho1; done.
  - intros old Hold. destruct (Hp1 old Hold) as (x1 & H1).
    destruct (Hp2 _ H1) as (x2 & H2). exists (x1 ++ x2).
    by rewrite H2, app_assoc.
Qed.

(** X17. The audit log is append-only: whatever the entry and the state of
    the file system, and whether it succeeds or fails, [LogDetachAudit]
    leaves the directories and every other file as they were, keeps what the
    audit log held at the front of what it holds afterwards, and touches
    neither the issue database nor standard error. *)
Theorem audit_log_append_only
    (b : Beads) (entry : DetachAuditEntry) (w : World) :
  appendOnly (fsys w) (fsys (snd (LogDetachAudit b entry w))) (auditPath b) ∧
  bdIssues (snd (LogDetachAudit b entry w)) = bdIssues w ∧
  bdFaults (snd (LogDetachAudit b entry w)) = bdFaults w ∧
  stderr (snd (LogDetachAudit b entry w)) = stderr w.
Proof.
  unfold LogDetachAudit. destruct (json_Marshal entry) as [data|e];
    [|simpl; split; [apply appendOnly_refl|done]].
  destruct (OpenFile (auditPath b) (fsys w)) as [r fs1] eqn:Ho.
  apply OpenFile_appendOnly in Ho as [Ho Hr].
  destruct r as [f|e]; [|by subst fs1].
  subst f. destruct (Write (auditPath b) (data ++ [LF]) fs1) as [r fs2] eqn:Hw.
  apply Write_appendOnly in Hw.
  pose proof (appendOnly_trans _ _ _ _ Ho Hw) as H.
  by destruct r.
Qed.

Lemma appendable_appended (p : path) (data : str) (fs : FS) :
  appendable p fs -> p ∉ readOnly fs -> appendable p (appended fs p data).
Proof.
  intros (Hnd & Hpar & Hro & Hfull) Hp. split; [done|]. split; [done|].
  split; [|done]. unfold appended. cbn [files setFiles readOnly].
  by rewrite (lookup_insert_eq (files fs) p).
Qed.

(** X18. Entries pile up in order: when the audit log can be appended to
    and is not write-protected, two calls of [LogDetachAudit] in a row both
    succeed, and the log then holds what it held before, the line of the
    first entry and the line of the second, in this order. *)
Theorem audit_entries_in_order
    (b : Beads) (entry1 entry2 : DetachAuditEntry) (w : World) :
  appendable (auditPath b) (fsys w) -> auditPath b ∉ readOnly (fsys w) ->
  ∃ data1 data2 w1 w2,
    json_Marshal entry1 = Ok data1 ∧ json_Marshal entry2 = Ok data2 ∧
    LogDetachAudit b entry1 w = (None, w1) ∧
    LogDetachAudit b entry2 w1 = (None, w2) ∧
    files (fsys w2) !! auditPath b =
      Some (default [] (files (fsys w) !! auditPath b)
              ++ data1 ++ [LF] ++ data2 ++ [LF]).
Proof.
  intros Happ Hro.
  destruct (LogDetachAudit_appendable b entry1 w Happ) as (data1 & Hm1 & _ & Hl1).
  set (w1 := setFsys w (appended (fsys w) (auditPath b) (data1 ++ [LF]))) in *.
  assert (appendable (auditPath b) (fsys w1)) as Happ1
    by (by apply appendable_appended).
  destruct (LogDetachAudit_appendable b entry2 w1 Happ1) as (data2 & Hm2 & _ & Hl2).
  exists data1, data2, w1,
    (setFsys w1 (appended (fsys w1) (auditPath b) (data2 ++ [LF]))).
  repeat (split; [done|]).
  subst w1. unfold appended. cbn [fsys setFsys files setFiles].
  rewrite !lookup_insert_eq. unfold default at 1. cbn [from_option id].
  by rewrite <- !app_assoc.
Qed.

End AppendOnly.

(** ** Events inside a workspace *)

Section EventsInside.

Variable Payload : Type.
Variable json_Marshal : events.Event Payload -> Result str.

Lemma open_then_write (p : path) (data : str) (fs : FS) :
  appendable p fs ->
  ∃ fs1, OpenFile p fs = (Ok p, fs1) ∧ Write p data fs1 = (None, appended fs p data).
Proof.
  intros Happ. eexists. split; [by apply OpenFile_appendable|].
  destruct Happ as (_ & _ & _ & Hfull). unfold Write, appended.
  destruct (files fs !! p) as [old|] eqn:E.
  - rewrite Hfull. by setoid_rewrite E.
  - simpl. rewrite Hfull. simpl.
    setoid_rewrite lookup_insert_eq. setoid_rewrite insert_insert_eq. simpl.
    by destruct fs.
Qed.

(** X19. Inside a workspace, when the event encodes and the events file
    can be appended to, [Log] stamps the event with the time of the clock
    and the source ["gt"], returns no error and appends the encoded event
    and a line feed to [<townRoot>/.events.jsonl]; the file is created when
    it is absent and nothing else in the file system changes. *)
Theorem log_appends_one_line
    (eventType actor visibility townRoot data : str) (payload : Payload)
    (env : events.Env) :
  events.findFromCwd env = (townRoot, None) -> townRoot ≠ [] ->
  json_Marshal (events.mkEvent Payload (events.envClock env) "gt" eventType
                               actor payload visibility) = Ok data ->
  appendable [townRoot; events.EventsFile] (events.envFsys env) ->
  events.Log Payload json_Marshal eventType actor payload visibility env =
    (None, events.setEnvFsys env
             (appended (events.envFsys env) [townRoot; events.EventsFile]
                       (data ++ [LF]))) ∧
  appendOnly (events.envFsys env)
             (appended (events.envFsys env) [townRoot; events.EventsFile]
                       (data ++ [LF]))
             [townRoot; events.EventsFile].
Proof.
  intros Hf Hne Hm Happ. split.
  - unfold events.Log, events.write. rewrite Hf, Hm.
    rewrite bool_decide_eq_false_2 by (by intros [x Hx]).
    assert (isEmpty townRoot = false) as -> by (by destruct townRoot).
    cbn [orb].
    destruct (open_then_write _ (data ++ [LF]) _ Happ) as (fs1 & -> & ->).
    done.
  - split; [done|]. split.
    + intros q Hq. simpl. by apply lookup_insert_ne.
    + intros old Hold. exists (data ++ [LF]). simpl.
      setoid_rewrite lookup_insert_eq. by rewrite Hold.
Qed.

(** X20. The event log is append-only and failures leave no trace: whatever
    the event and the environment, [write] leaves the directories and every
    file but [<townRoot>/.events.jsonl] as they were and keeps what that
    file held at the front of what it holds afterwards; when the event does
    not encode, or the town root is not a directory of the file system,
    [write] returns an error and the environment is as it was. *)
Theorem event_log_append_only
    (event : events.Event Payload) (env : events.Env) :
  appendOnly (events.envFsys env)
             (events.envFsys (snd (events.write Payload json_Marshal event env)))
             [fst (events.findFromCwd env); events.EventsFile] ∧
  (snd (events.findFromCwd env) = None -> fst (events.findFromCwd env) ≠ [] ->
   (∃ e, json_Marshal event = Err e) ∨
   [fst (events.findFromCwd env)] ∉ dirs (events.envFsys env) ->
   ∃ e, events.write Payload json_Marshal event env = (Some e, env)).
Proof.
  unfold events.write. destruct (events.findFromCwd env) as [townRoot err].
  cbn [fst snd]. split.
  - destruct (bool_decide (is_Some err) || isEmpty townRoot);
      [apply appendOnly_refl|].
    destruct (json_Marshal event) as [data|e]; [|apply appendOnly_refl].
    destruct (OpenFile [townRoot; events.EventsFile] (events.envFsys env))
      as [r fs1] eqn:Ho.
    apply OpenFile_appendOnly in Ho as [Ho Hr].
    destruct r as [f|e]; [|by subst fs1].
    subst f.
    destruct (Write [townRoot; events.EventsFile] (data ++ [LF]) fs1)
      as [r fs2] eqn:Hw.
    apply Write_appendOnly in Hw.
    pose proof (appendOnly_trans _ _ _ _ Ho Hw) as H.
    by destruct r.
  - intros -> Hne Hfail.
    rewrite bool_decide_eq_false_2 by (by intros [x Hx]).
    assert (isEmpty townRoot = false) as -> by (by destruct townRoot).
    cbn [orb].
    destruct (json_Marshal event) as [data|e]; [|eauto].
    destruct Hfail as [[e He]|Hdir]; [done|].
    destruct (OpenFile_no_directory [townRoot; events.EventsFile]
                (events.envFsys env) Hdir) as (e & ->).
    exists (Wrap "opening events file" e).
    by destruct env as [ffc fs now].
Qed.

End EventsInside.

(** ** The handoff bead and the mail *)

Section Handoff.

Variable bdList : list str -> gmap str Issue -> Result (list Issue).
Variable bdCreate : list str -> gmap str Issue -> Result Issue * gmap str Issue.
Variable bdClose : list str -> gmap str Issue -> gmap str Issue.

Lemma List_healthy (b : Beads) (opts : ListOptions) (w : World)
    (issues : list Issue) :
  healthy w -> bdList (listArgs opts) (bdIssues w) = Ok issues ->
  List bdList b opts w = (Ok issues, w).
Proof.
  unfold healthy, List, run. destruct w as [db faults fs err now]; simpl.
  by intros -> ->.
Qed.

Lemma Create_healthy (b : Beads) (opts : CreateOptions) (w : World)
    (issue : Issue) (db : gmap str Issue) :
  healthy w -> bdCreate (createArgs opts) (bdIssues w) = (Ok issue, db) ->
  Create bdCreate b opts w = (Ok issue, withIssues w db).
Proof.
  unfold healthy, Create, run, withIssues.
  destruct w as [db0 faults fs err now]; simpl. by intros -> ->.
Qed.

Lemma CloseWithReason_healthy (b : Beads) (reason : str) (ids : list str)
    (w : World) :
  healthy w -> ids ≠ [] ->
  CloseWithReason bdClose b reason ids w =
  (None, withIssues w (bdClose (("close" :: ids) ++ ["--reason=" ++ reason])
                               (bdIssues w))).
Proof.
  unfold healthy, CloseWithReason, run, withIssues.
  destruct w as [db faults fs err now]; simpl. intros -> Hne.
  by destruct ids.
Qed.

Lemma HandoffBeadTitle_inj (role other : str) :
  HandoffBeadTitle role = HandoffBeadTitle other -> role = other.
Proof. apply app_inv_tail. Qed.

Lemma FindHandoffBead_healthy (b : Beads) (role : str) (w : World)
    (issues : list Issue) :
  healthy w -> bdList (listArgs pinnedQuery) (bdIssues w) = Ok issues ->
  FindHandoffBead bdList b role w =
  (Ok (List.find (fun issue => bool_decide (Title issue = HandoffBeadTitle role))
                 issues), w).
Proof.
  intros Hh Hl. unfold FindHandoffBead. unfold pinnedQuery in Hl.
  by rewrite (List_healthy b _ w issues Hh Hl).
Qed.

(** X23. The search for the handoff bead: with [bd] answering the query
    for pinned issues, [FindHandoffBead] returns without error and leaves
    the world as it was; what it returns is a listed issue whose title is
    the role followed by [" Handoff"], which is the title of no other
    role, or [nil], and then no listed issue has that title. *)
Theorem find_handoff_bead
    (b : Beads) (role : str) (w : World) (issues : list Issue) :
  healthy w -> bdList (listArgs pinnedQuery) (bdIssues w) = Ok issues ->
  ∃ r,
    FindHandoffBead bdList b role w = (Ok r, w) ∧
    match r with
    | Some found =>
        found ∈ issues ∧ Title found = role ++ " Handoff" ∧
        (∀ other, other ≠ role -> Title found ≠ HandoffBeadTitle other)
    | None => ∀ issue, issue ∈ issues -> Title issue ≠ role ++ " Handoff"
    end.
Proof.
  intros Hh Hl. eexists. split; [by apply FindHandoffBead_healthy|].
  destruct (List.find _ issues) as [found|] eqn:E.
  - apply List.find_some in E as [Hin Ht].
    apply bool_decide_eq_true_1 in Ht.
    split; [by apply list_elem_of_In|]. split; [done|].
    intros other Hne Heq. apply Hne. symmetry.
    apply HandoffBeadTitle_inj. by rewrite <- Ht, Heq.
  - intros issue Hin Ht. apply list_elem_of_In in Hin.
    pose proof (List.find_none _ _ E issue Hin) as Hf.
    simpl in Hf. by rewrite bool_decide_eq_true_2 in Hf.
Qed.

Lemma GetOrCreateHandoffBead_existing (b : Beads) (role : str) (w : World)
    (issues : list Issue) (found : Issue) :
  healthy w -> bdList (listArgs pinnedQuery) (bdIssues w) = Ok issues ->
  List.find (fun issue => bool_decide (Title issue = HandoffBeadTitle role))
            issues = Some found ->
  GetOrCreateHandoffBead bdList bdCreate b role w = (Ok found, w).
Proof.
  intros Hh Hl Hf. unfold GetOrCreateHandoffBead.
  by rewrite (FindHandoffBead_healthy b role w issues Hh Hl), Hf.
Qed.

(** X24. Handoff content replaces the whole description: when the handoff
    bead of the role is listed and on record, [UpdateHandoffContent] stores
    the content as the description as it is, so that [GetAttachment] then
    reports what the content says and nothing of an attachment the bead
    carried; [ClearHandoffContent] stores the empty description, after which
    [GetAttachment] finds no attachment. Neither touches the file system:
    no audit entry is written. *)
Theorem handoff_content_replaces_attachment
    (b : Beads) (role content : str) (w : World) (issues : list Issue)
    (found current : Issue) :
  healthy w -> bdList (listArgs pinnedQuery) (bdIssues w) = Ok issues ->
  List.find (fun issue => bool_decide (Title issue = HandoffBeadTitle role))
            issues = Some found ->
  bdIssues w !! ID found = Some current ->
  (∃ w1,
     UpdateHandoffContent bdList bdCreate b role content w = (None, w1) ∧
     bdIssues w1 !! ID found = Some (withDescription current content) ∧
     fsys w1 = fsys w ∧
     GetAttachment b (ID found) w1 =
       (Ok (ParseAttachmentFields (Some (withDescription current content))), w1)) ∧
  (∃ w1,
     ClearHandoffContent bdList b role w = (None, w1) ∧
     bdIssues w1 !! ID found = Some (withDescription current []) ∧
     fsys w1 = fsys w ∧
     GetAttachment b (ID found) w1 = (Ok None, w1)).
Proof.
  intros Hh Hl Hf Hc. split.
  - eexists. unfold UpdateHandoffContent.
    rewrite (GetOrCreateHandoffBead_existing b role w issues found Hh Hl Hf).
    rewrite (Update_healthy b _ _ w current Hh Hc), applyUpdate_description.
    split; [done|]. split; [apply lookup_insert_eq|]. split; [done|].
    apply GetAttachment_healthy; [done|apply lookup_insert_eq].
  - eexists. unfold ClearHandoffContent.
    rewrite (FindHandoffBead_healthy b role w issues Hh Hl), Hf.
    rewrite (Update_healthy b _ _ w current Hh Hc), applyUpdate_description.
    split; [done|]. split; [apply lookup_insert_eq|]. split; [done|].
    by rewrite (GetAttachment_healthy b _ _ (withDescription current []));
      [|done|apply lookup_insert_eq].
Qed.

(** X25. A handoff bead that had to be created is pinned: when no listed
    issue has the title of the role and [bd create] answers with an issue
    that is on record, [GetOrCreateHandoffBead] asks for a task of priority
    2 with that title and the role as actor, sets its status to pinned and
    returns the record with that status; [AttachMolecule] on it then
    succeeds. *)
Theorem created_bead_is_pinned
    (b : Beads) (role moleculeID : str) (w : World) (issues : list Issue)
    (issue stored : Issue) (db : gmap str Issue) :
  healthy w -> bdList (listArgs pinnedQuery) (bdIssues w) = Ok issues ->
  (∀ listed, listed ∈ issues -> Title listed ≠ HandoffBeadTitle role) ->
  bdCreate ["create"; "--json"; "--title=" ++ role ++ " Handoff"; "--type=task";
            "--priority=2"; "--actor=" ++ role] (bdIssues w) = (Ok issue, db) ->
  role ≠ [] -> db !! ID issue = Some stored ->
  ∃ bead w1,
    GetOrCreateHandoffBead bdList bdCreate b role w = (Ok bead, w1) ∧
    Status bead = StatusPinned ∧
    bead = applyUpdate (statusOnly StatusPinned) stored ∧
    bdIssues w1 = <[ID issue := bead]> db ∧
    ∃ updated w2, AttachMolecule b (ID issue) moleculeID w1 = (Ok updated, w2).
Proof.
  intros Hh Hl Hnone Hc Hrole Hs.
  assert (List.find (fun i => bool_decide (Title i = HandoffBeadTitle role))
                    issues = None) as Hf.
  { destruct (List.find _ issues) as [found|] eqn:E; [|done].
    apply List.find_some in E as [Hin Ht]. apply bool_decide_eq_true_1 in Ht.
    apply list_elem_of_In in Hin. by destruct (Hnone found Hin). }
  assert (createArgs (handoffBead role) =
          ["create"; "--json"; "--title=" ++ role ++ " Handoff"; "--type=task";
           "--priority=2"; "--actor=" ++ role]) as Hargs.
  { unfold createArgs, handoffBead, HandoffBeadTitle.
    cbn [createTitle createType createPriority createDescription createParent
         createActor].
    destruct role as [|c role]; [done|]. reflexivity. }
  rewrite <- Hargs in Hc.
  set (bead := applyUpdate (statusOnly StatusPinned) stored).
  set (w1 := withIssues w (<[ID issue := bead]> db)).
  assert (healthy w1) as Hh1 by done.
  assert (bdIssues w1 !! ID issue = Some bead) as Hb by apply lookup_insert_eq.
  exists bead, w1. split; [|split; [done|split; [done|split; [done|]]]].
  - unfold GetOrCreateHandoffBead.
    rewrite (FindHandoffBead_healthy b role w issues Hh Hl), Hf.
    fold (handoffBead role).
    rewrite (Create_healthy b _ w issue db Hh Hc).
    rewrite (Update_healthy b _ _ (withIssues w db) stored); [|done|done].
    cbn [withIssues bdIssues bdFaults fsys stderr clock].
    by apply Show_healthy.
  - eexists _, _. by apply (AttachMolecule_healthy b _ _ w1 bead).
Qed.

Lemma separateMail_fold (issues : list Issue) (toClose : list str)
    (toClear : list Issue) :
  fold_left separateMail issues (toClose, toClear) =
  (toClose ++ map ID (List.filter (fun i => negb (isPinned i)) issues),
   toClear ++ List.filter isPinned issues).
Proof.
  revert toClose toClear.
  induction issues as [|i issues IH]; intros toClose toClear.
  - simpl. by rewrite !app_nil_r.
  - cbn [fold_left List.filter]. unfold separateMail at 2.
    change (bool_decide (Status i = StatusPinned)) with (isPinned i).
    destruct (isPinned i); cbn [negb];
      rewrite IH; cbn [map]; by rewrite <- !app_assoc.
Qed.

Lemma clearPinned_healthy (b : Beads) (toClear : list Issue)
    (result : ClearMailResult) (w : World) :
  healthy w ->
  (∀ i, i ∈ toClear -> is_Some (bdIssues w !! ID i)) ->
  ∃ w',
    clearPinned b toClear result w =
      (Ok (mkClearMailResult (Closed result) (Cleared result + length toClear)),
       w') ∧
    healthy w' ∧ fsys w' = fsys w ∧ stderr w' = stderr w ∧
    (∀ id x, bdIssues w !! id = Some x ->
       ∃ x', bdIssues w' !! id = Some x' ∧ Status x' = Status x ∧
             (Description x' = Description x ∨ Description x' = [])) ∧
    (∀ i, i ∈ toClear ->
       ∃ x', bdIssues w' !! ID i = Some x' ∧ Description x' = []).
Proof.
  revert result w. induction toClear as [|i rest IH]; intros result w Hh Hall.
  - exists w. cbn [clearPinned length]. rewrite Nat.add_0_r.
    split; [by destruct result|]. repeat split; try done.
    + intros id x Hx. exists x. auto.
    + intros i Hi. by apply elem_of_nil in Hi.
  - destruct (Hall i ltac:(left)) as [cur Hcur].
    cbn [clearPinned]. rewrite (Update_healthy b _ _ w cur Hh Hcur).
    rewrite applyUpdate_description.
    set (w1 := withIssues w (<[ID i := withDescription cur []]> (bdIssues w))).
    destruct (IH (mkClearMailResult (Closed result) (S (Cleared result))) w1)
      as (w' & Hrun & Hh' & Hfs & Herr & Hkeep & Hclear).
    { done. }
    { intros j Hj. cbn [w1 withIssues bdIssues].
      destruct (decide (ID j = ID i)) as [->|Hne].
      - rewrite lookup_insert_eq. eauto.
      - rewrite lookup_insert_ne by done. apply Hall. by right. }
    exists w'. rewrite Hrun. cbn [Closed Cleared length].
    replace (S (Cleared result) + length rest)
      with (Cleared result + S (length rest)) by lia.
    split; [done|]. split; [done|]. split; [done|]. split; [done|]. split.
    + intros id x Hx. destruct (decide (id = ID i)) as [->|Hne].
      * destruct (Hkeep (ID i) (withDescription cur [])) as (x' & Hx' & Hs & Hd).
        { apply lookup_insert_eq. }
        exists x'. split; [done|]. rewrite Hcur in Hx. injection Hx as <-.
        split; [done|]. right. by destruct Hd.
      * apply Hkeep. cbn [w1 withIssues bdIssues].
        by rewrite lookup_insert_ne.
    + intros j Hj. apply elem_of_cons in Hj as [->|Hj]; [|by apply Hclear].
      destruct (Hkeep (ID i) (withDescription cur [])) as (x' & Hx' & _ & Hd).
      { apply lookup_insert_eq. }
      exists x'. split; [done|]. by destruct Hd.
Qed.

(** X26. The mail is cleared and counted: with [bd] answering, every listed
    message on record with the status listed, and [bd close] keeping every
    record and leaving the pinned ones as they are, [ClearMail] returns the
    number of listed messages that are not pinned as [Closed] and the
    number of pinned ones as [Cleared]; afterwards every pinned listed
    message has an empty description and is still pinned, and the file
    system is as it was. *)
Theorem clear_mail_counts
    (b : Beads) (reason : str) (w : World) (issues : list Issue) :
  healthy w -> bdList (listArgs mailQuery) (bdIssues w) = Ok issues ->
  (∀ args db id x, db !! id = Some x ->
     ∃ x', bdClose args db !! id = Some x' ∧
           (Status x = StatusPinned -> x' = x)) ->
  (∀ i, i ∈ issues -> ∃ x, bdIssues w !! ID i = Some x ∧ Status x = Status i) ->
  ∃ w',
    ClearMail bdList bdClose b reason w =
      (Ok (mkClearMailResult
             (length (List.filter (fun i => negb (isPinned i)) issues))
             (length (List.filter isPinned issues))), w') ∧
    (∀ i, i ∈ issues -> Status i = StatusPinned ->
       ∃ x', bdIssues w' !! ID i = Some x' ∧ Description x' = [] ∧
             Status x' = StatusPinned) ∧
    fsys w' = fsys w.
Proof.
  intros Hh Hl Hclose Hrec. unfold ClearMail.
  unfold mailQuery in Hl. rewrite (List_healthy b _ w issues Hh Hl).
  rewrite separateMail_fold. cbn [app].
  set (toClose := map ID (List.filter (fun i => negb (isPinned i)) issues)).
  set (toClear := List.filter isPinned issues).
  assert (∀ w0, healthy w0 -> fsys w0 = fsys w ->
            (∀ i, i ∈ issues -> Status i = StatusPinned ->
               ∃ x, bdIssues w0 !! ID i = Some x ∧ Status x = StatusPinned) ->
            ∀ closed, ∃ w',
              clearPinned b toClear (mkClearMailResult closed 0) w0 =
                (Ok (mkClearMailResult closed (length toClear)), w') ∧
              (∀ i, i ∈ issues -> Status i = StatusPinned ->
                 ∃ x', bdIssues w' !! ID i = Some x' ∧ Description x' = [] ∧
                       Status x' = StatusPinned) ∧
              fsys w' = fsys w) as Hloop.
  { intros w0 Hh0 Hfs0 Hrec0 closed.
    assert (∀ i, i ∈ toClear -> i ∈ issues ∧ Status i = StatusPinned) as Hsub.
    { intros i Hi. apply list_elem_of_In, List.filter_In in Hi as [Hin Hp].
      split; [by apply list_elem_of_In|]. by apply bool_decide_eq_true_1 in Hp. }
    destruct (clearPinned_healthy b toClear (mkClearMailResult closed 0) w0 Hh0)
      as (w' & Hrun & _ & Hfs & _ & Hkeep & Hclear).
    { intros i Hi. destruct (Hsub i Hi) as [Hin Hp].
      destruct (Hrec0 i Hin Hp) as (x & Hx & _). eauto. }
    exists w'. split; [exact Hrun|]. split; [|congruence].
    intros i Hin Hp.
    destruct (Hclear i) as (x' & Hx' & Hd).
    { apply list_elem_of_In, List.filter_In. split; [by apply list_elem_of_In|].
      by apply bool_decide_eq_true_2. }
    exists x'. split; [done|]. split; [done|].
    destruct (Hrec0 i Hin Hp) as (x & Hx & Hsx).
    destruct (Hkeep _ _ Hx) as (x'' & Hx'' & Hs'' & _).
    rewrite Hx' in Hx''. injection Hx'' as <-. congruence. }
  replace (length (List.filter (fun i => negb (isPinned i)) issues))
    with (length toClose) by (unfold toClose; apply length_map).
  clearbody toClose. destruct toClose as [|id0 ids].
  - cbn [length Nat.ltb Nat.leb].
    destruct (Hloop w Hh eq_refl) with (closed := 0) as (w' & Hrun & Hpost).
    { intros i Hin Hp. destruct (Hrec i Hin) as (x & Hx & Hs).
      exists x. split; [done|congruence]. }
    exists w'. by rewrite Hrun.
  - replace (0 <? length (id0 :: ids)) with true by reflexivity.
    rewrite (CloseWithReason_healthy b reason (id0 :: ids) w Hh) by done.
    set (w0 := withIssues w _).
    destruct (Hloop w0) with (closed := length (id0 :: ids))
      as (w' & Hrun & Hpost); [done|done| |].
    { intros i Hin Hp. destruct (Hrec i Hin) as (x & Hx & Hs).
      destruct (Hclose (("close" :: id0 :: ids) ++ ["--reason=" ++ reason])
                  (bdIssues w) (ID i) x Hx) as (x' & Hx' & Hsame).
      exists x'. split; [exact Hx'|]. rewrite Hsame; congruence. }
    exists w'. split; [|exact Hpost].
    cbn [Cleared]. by rewrite Hrun.
Qed.

End Handoff.

(** ** The properties above at work *)

Section Examples.

Ltac evaluated :=
  repeat split; try reflexivity; try (apply noLF_decide; reflexivity).

Lemma parse_of_merged_witness :
  ParseAttachmentFields
    (Some (withDescription notedHandoff
             (SetAttachmentFields (Some notedHandoff) (Some freshFields)))) =
  ParseAttachmentFields
    (Some (withDescription notedHandoff
             (FormatAttachmentFields (Some freshFields)))).
Proof.
  apply (proj1 (parse_of_merged notedHandoff (Some freshFields) None)).
  evaluated.
Defined.


Lemma merge_overwrites_witness :
  SetAttachmentFields
    (Some (withDescription notedHandoff
             (SetAttachmentFields (Some notedHandoff) (Some freshFields))))
    None =
  SetAttachmentFields (Some notedHandoff) None.
Proof.
  apply (proj1 (merge_overwrites notedHandoff
                  (withDescription notedHandoff
                     (SetAttachmentFields (Some notedHandoff) (Some freshFields)))
                  notedHandoff (Some freshFields) None None None));
    [evaluated | reflexivity].
Defined.

Lemma schemas_do_not_interfere_witness :
  ParseAttachmentFields
    (Some (withDescription notedHandoff
             (SetMRFields (Some notedHandoff) (Some nuxMR)))) =
  ParseAttachmentFields (Some notedHandoff).
Proof.
  apply (proj1 (schemas_do_not_interfere notedHandoff None (Some nuxMR))).
  evaluated.
Defined.

Lemma parse_returns_clean_fields_witness :
  ParseAttachmentFields (Some notedHandoff) =
    Some (mkAttachmentFields "gt-7" "" "fix it") ∧
  cleanAttachment (mkAttachmentFields "gt-7" "" "fix it") ∧
  mkAttachmentFields "gt-7" "" "fix it" ≠ zeroAttachmentFields.
Proof.
  split; [reflexivity|].
  apply (parse_returns_clean_fields notedHandoff). reflexivity.
Defined.



Lemma parse_format_parse_witness :
  ParseAttachmentFields
    (Some (handoff "attached_molecule: gt-7
attached_args: fix it" "pinned")) =
  Some (mkAttachmentFields "gt-7" "" "fix it").
Proof.
  apply (parse_format_parse notedHandoff); reflexivity.
Defined.

Lemma mr_empty_value_lines_witness :
  ParseMRFields (Some (handoff "branch:
  Source-Issue :  " "open")) = None ∧
  SetMRFields (Some (handoff "branch:
  Source-Issue :  " "open")) (Some nuxMR) = FormatMRFields (Some nuxMR).
Proof.
  assert (Forall (fun l => emptyValueLine mrKeys l ∧ noLF l)
                 ["branch:"; "  Source-Issue :  "]) as Hlines.
  { repeat constructor.
    - exists "", "branch", "", "".
      repeat split; try reflexivity; repeat constructor.
    - apply noLF_decide. reflexivity.
    - exists "  ", "Source-Issue", " ", "  ".
      repeat split; try reflexivity; repeat constructor.
    - apply noLF_decide. reflexivity. }
  destruct (mr_empty_value_lines (handoff "branch:
  Source-Issue :  " "open") ["branch:"; "  Source-Issue :  "] (Some nuxMR)
              Hlines eq_refl) as (_ & Hp & Hs).
  split; [exact Hp|exact Hs].
Defined.


Lemma detach_then_get_witness :
  ∃ updated w1,
    DetachMoleculeWithAudit townBeads "gt-1" byToast (town bareFS notedHandoff) =
      (Ok updated, w1) ∧
    GetAttachment townBeads "gt-1" w1 = (Ok None, w1).
Proof.
  apply (proj1 (detach_then_get townBeads "gt-1" byToast
                  (town bareFS notedHandoff) notedHandoff
                  (town_healthy _ _) (town_lookup _ _))).
Defined.

Lemma missing_record_witness :
  AttachMolecule townBeads "gt-404" "gt-42" (town readyFS notedHandoff) =
    (Err (Wrap "fetching pinned bead" ErrNotFound), town readyFS notedHandoff) ∧
  GetAttachment townBeads "gt-404" (town readyFS notedHandoff) =
    (Err ErrNotFound, town readyFS notedHandoff).
Proof.
  destruct (missing_record townBeads "gt-404" "gt-42" byToast
              (town readyFS notedHandoff) (town_healthy _ _)
              ltac:(by apply lookup_singleton_ne)) as (Ha & _ & _ & Hg & _).
  split; [exact Ha|exact Hg].
Defined.

Lemma attach_detach_frame_witness :
  ∃ updated w1,
    DetachMoleculeWithAudit townBeads "gt-1" byToast (town readyFS notedHandoff) =
      (Ok updated, w1) ∧
    (∀ other, other ≠ "gt-1" ->
       bdIssues w1 !! other = bdIssues (town readyFS notedHandoff) !! other) ∧
    bdIssues w1 !! ("gt-1" : str) = Some updated ∧
    (ID updated, Title updated, Status updated, Priority updated,
     Assignee updated) =
    (ID notedHandoff, Title notedHandoff, Status notedHandoff,
     Priority notedHandoff, Assignee notedHandoff).
Proof.
  apply (proj2 (attach_detach_frame townBeads "gt-1" "gt-42" byToast
                  (town readyFS notedHandoff) notedHandoff
                  (town_healthy _ _) (town_lookup _ _))).
Defined.


Lemma detach_variants_agree_witness :
  fst (DetachMoleculeWithAudit townBeads "gt-1" byToast
         (town bareFS notedHandoff)) =
  fst (DetachMolecule townBeads "gt-1" (town bareFS notedHandoff)).
Proof.
  apply (proj1 (detach_variants_agree townBeads "gt-1" byToast
                  (town bareFS notedHandoff) notedHandoff
                  (town_healthy _ _) (town_lookup _ _))).
Defined.

Lemma fetch_failure_reported_witness :
  DetachMoleculeWithAudit townBeads "gt-1" byToast
    (troubledTown [Some (ErrExternal "bd list: database is locked")]
                  readyFS notedHandoff) =
  (Err (Wrap "fetching pinned bead" (ErrExternal "bd list: database is locked")),
   town readyFS notedHandoff).
Proof.
  apply (fetch_failure_reported townBeads "gt-1" "gt-42" byToast
           (troubledTown [Some (ErrExternal "bd list: database is locked")]
                         readyFS notedHandoff)
           (ErrExternal "bd list: database is locked") [] eq_refl).
Defined.

Lemma update_failure_reported_witness :
  AttachMolecule townBeads "gt-1" "gt-42"
    (troubledTown [None; Some (ErrExternal "bd update: database is locked")]
                  readyFS notedHandoff) =
  (Err (Wrap "updating pinned bead"
          (ErrExternal "bd update: database is locked")),
   town readyFS notedHandoff).
Proof.
  apply (proj1 (update_failure_reported townBeads "gt-1" "gt-42"
                  (troubledTown
                     [None; Some (ErrExternal "bd update: database is locked")]
                     readyFS notedHandoff)
                  notedHandoff (ErrExternal "bd update: database is locked") []
                  eq_refl (town_lookup readyFS notedHandoff))).
  reflexivity.
Defined.

Lemma audit_precedes_update_witness :
  ∃ data,
    json_Marshal
      (detachEntry
         (troubledTown
            [None; Some (ErrExternal "bd update: database is locked")]
            readyFS notedHandoff)
         "gt-1" byToast (mkAttachmentFields "gt-7" "" "fix it") notedHandoff) =
      Ok data ∧
    DetachMoleculeWithAudit townBeads "gt-1" byToast
      (troubledTown [None; Some (ErrExternal "bd update: database is locked")]
                    readyFS notedHandoff) =
      (Err (Wrap "updating pinned bead"
              (ErrExternal "bd update: database is locked")),
       town (appended readyFS (auditPath townBeads) (data ++ [LF]))
            notedHandoff) ∧
    bdIssues (troubledTown
                [None; Some (ErrExternal "bd update: database is locked")]
                readyFS notedHandoff) !! ("gt-1" : str) = Some notedHandoff.
Proof.
  apply (audit_precedes_update townBeads "gt-1" byToast
           (troubledTown
              [None; Some (ErrExternal "bd update: database is locked")]
              readyFS notedHandoff)
           notedHandoff (mkAttachmentFields "gt-7" "" "fix it")
           (ErrExternal "bd update: database is locked") []
           eq_refl (town_lookup readyFS notedHandoff) eq_refl readyFS_appendable).
Defined.

Lemma audit_entries_in_order_witness :
  ∃ data1 data2 w1 w2,
    json_Marshal sampleEntry = Ok data1 ∧ json_Marshal sampleEntry = Ok data2 ∧
    LogDetachAudit townBeads sampleEntry (town readyFS notedHandoff) = (None, w1) ∧
    LogDetachAudit townBeads sampleEntry w1 = (None, w2) ∧
    files (fsys w2) !! auditPath townBeads =
      Some (default [] (files readyFS !! auditPath townBeads)
              ++ data1 ++ [LF] ++ data2 ++ [LF]).
Proof.
  apply (audit_entries_in_order townBeads sampleEntry sampleEntry
           (town readyFS notedHandoff) readyFS_appendable).
  unfold readyFS. cbn [fsys town readOnly]. set_solver.
Defined.

Lemma townFS_appendable :
  appendable ["/town"; events.EventsFile] townFS.
Proof.
  unfold appendable, townFS. cbn [dirs files readOnly diskFull].
  rewrite lookup_empty. repeat split; set_solver.
Qed.

Lemma log_appends_one_line_witness :
  events.Log unit (fun _ => Ok "{}") "sling" "gastown/Toast" tt
             events.VisibilityFeed (insideEnv townFS) =
  (None, insideEnv (appended townFS ["/town"; ".events.jsonl"] "{}
")).
Proof.
  apply (proj1 (log_appends_one_line unit (fun _ => Ok "{}") "sling"
                  "gastown/Toast" events.VisibilityFeed "/town" "{}" tt
                  (insideEnv townFS) eq_refl ltac:(discriminate) eq_refl
                  townFS_appendable)).
Defined.

Lemma event_log_append_only_witness :
  ∃ e, events.write unit (fun _ => Ok "{}")
         (events.mkEvent unit "2025-01-01T00:00:00Z" "gt" "sling"
                         "gastown/Toast" tt events.VisibilityFeed)
         (insideEnv bareFS) = (Some e, insideEnv bareFS).
Proof.
  apply (proj2 (event_log_append_only unit (fun _ => Ok "{}")
                  (events.mkEvent unit "2025-01-01T00:00:00Z" "gt" "sling"
                                  "gastown/Toast" tt events.VisibilityFeed)
                  (insideEnv bareFS)) eq_refl ltac:(discriminate)).
  right. unfold bareFS. cbn [dirs events.envFsys insideEnv fst events.findFromCwd].
  set_solver.
Defined.

Lemma find_handoff_bead_witness :
  ∃ r,
    FindHandoffBead (fun _ _ => Ok [hello; notedHandoff]) townBeads "mayor"
                    (town readyFS notedHandoff) =
      (Ok r, town readyFS notedHandoff) ∧
    match r with
    | Some found =>
        found ∈ [hello; notedHandoff] ∧ Title found = "mayor Handoff" ∧
        (∀ other, other ≠ "mayor" -> Title found ≠ HandoffBeadTitle other)
    | None =>
        ∀ issue, issue ∈ [hello; notedHandoff] -> Title issue ≠ "mayor Handoff"
    end.
Proof.
  apply (find_handoff_bead (fun _ _ => Ok [hello; notedHandoff]) townBeads
           "mayor" (town readyFS notedHandoff) [hello; notedHandoff]
           (town_healthy _ _) eq_refl).
Defined.

Lemma handoff_content_replaces_attachment_witness :
  ∃ w1,
    ClearHandoffContent (fun _ _ => Ok [hello; notedHandoff]) townBeads "mayor"
                        (town readyFS notedHandoff) = (None, w1) ∧
    bdIssues w1 !! ID notedHandoff = Some (withDescription notedHandoff []) ∧
    fsys w1 = fsys (town readyFS notedHandoff) ∧
    GetAttachment townBeads (ID notedHandoff) w1 = (Ok None, w1).
Proof.
  apply (proj2 (handoff_content_replaces_attachment
                  (fun _ _ => Ok [hello; notedHandoff])
                  (fun _ db => (Ok witnessBead, db))
                  townBeads "mayor" "" (town readyFS notedHandoff)
                  [hello; notedHandoff] notedHandoff notedHandoff
                  (town_healthy _ _) eq_refl eq_refl (town_lookup _ _))).
Defined.

Lemma created_bead_is_pinned_witness :
  ∃ bead w1,
    GetOrCreateHandoffBead
      (fun _ _ => Ok [])
      (fun _ db => (Ok witnessBead, <[ "gt-9" := witnessBead ]> db))
      townBeads "witness" (town readyFS notedHandoff) = (Ok bead, w1) ∧
    Status bead = StatusPinned ∧
    bead = applyUpdate (statusOnly StatusPinned) witnessBead ∧
    bdIssues w1 =
      <[ID witnessBead := bead]>
        (<[ "gt-9" := witnessBead ]> (bdIssues (town readyFS notedHandoff))) ∧
    ∃ updated w2,
      AttachMolecule townBeads (ID witnessBead) "gt-42" w1 = (Ok updated, w2).
Proof.
  apply (created_bead_is_pinned
           (fun _ _ => Ok [])
           (fun _ db => (Ok witnessBead, <[ "gt-9" := witnessBead ]> db))
           townBeads "witness" "gt-42" (town readyFS notedHandoff) []
           witnessBead witnessBead _ (town_healthy _ _) eq_refl).
  - intros listed Hin. by apply elem_of_nil in Hin.
  - reflexivity.
  - discriminate.
  - apply lookup_insert_eq.
Defined.

Lemma postOffice_records (i : Issue) :
  i ∈ [notedHandoff; hello] ->
  ∃ x, bdIssues postOffice !! ID i = Some x ∧ Status x = Status i.
Proof.
  intros Hi. exists i. split; [|done].
  apply elem_of_cons in Hi as [->|Hi].
  - apply lookup_insert_eq.
  - apply list_elem_of_singleton in Hi as ->.
    unfold postOffice. cbn [bdIssues].
    rewrite lookup_insert_ne by done. apply lookup_singleton_eq.
Qed.

Lemma clear_mail_counts_witness :
  ∃ w',
    ClearMail (fun _ _ => Ok [notedHandoff; hello]) (fun _ db => db)
              townBeads "read" postOffice =
      (Ok (mkClearMailResult 1 1), w') ∧
    (∀ i, i ∈ [notedHandoff; hello] -> Status i = StatusPinned ->
       ∃ x', bdIssues w' !! ID i = Some x' ∧ Description x' = [] ∧
             Status x' = StatusPinned) ∧
    fsys w' = fsys postOffice.
Proof.
  apply (clear_mail_counts (fun _ _ => Ok [notedHandoff; hello])
           (fun _ db => db) townBeads "read" postOffice [notedHandoff; hello]
           eq_refl eq_refl).
  - intros args db id x Hx. exists x. split; [exact Hx|done].
  - apply postOffice_records.
Defined.

End Examples.
